(** * Sequential selection: rank aggregation, scoring engines, orchestration

    A shallow embedding of [src/utils.py] and [src/sequential_selection.py]
    and the properties of the specification checked against it. *)

From Stdlib Require Import ZArith QArith Qround Qabs.
From stdpp Require Import base option list gmap strings.

Local Open Scope Z_scope.
Local Open Scope nat_scope.

(** ** Python values and control flow *)

(** The exception classes that reach the caller, and the classes of the
    error taxonomy of the specification. *)
Inductive exn : Type :=
  | ValueError
  | IndexError
  | KeyError
  | OverflowError
  | ScoringError
  | ExhaustedCandidates
  | WorkerFailure.

(** What a call does: it returns a value, raises, or never returns (a loop
    that outlives its bound, a pool that is never joined). *)
Inductive outcome (A : Type) : Type :=
  | Returns (a : A)
  | Raises (e : exn)
  | NoReturn.
Arguments Returns {A} a.
Arguments Raises {A} e.
Arguments NoReturn {A}.

#[global] Instance outcome_ret : MRet outcome := fun A a => Returns a.
#[global] Instance outcome_bind : MBind outcome := fun A B k m =>
  match m with
  | Returns a => k a
  | Raises e => Raises e
  | NoReturn => NoReturn
  end.

(** Index normalisation of Python sequences: [i] in [0, n) is itself, [i] in
    [-n, 0) counts from the end, anything else is out of range. *)
Definition py_index (n : nat) (i : Z) : option nat :=
  if decide (0 ≤ i < Z.of_nat n)%Z then Some (Z.to_nat i)
  else if decide (- Z.of_nat n ≤ i < 0)%Z then Some (Z.to_nat (Z.of_nat n + i))
  else None.

(** [seq[i]] *)
Definition getitem {A} (l : list A) (i : Z) : outcome A :=
  match py_index (length l) i ≫= (l !!.) with
  | Some x => Returns x
  | None => Raises IndexError
  end.

(** The largest index-sized integer, [sys.maxsize] of a 64-bit build. *)
Definition ssize_max : Z := (2 ^ 63 - 1)%Z.

(** [list.pop(i)]: the element and the list without it. The index is first
    converted to an index-sized integer, an [OverflowError] when it does not
    fit, and then checked against the list, an [IndexError] when it is out
    of range. A list has at most [ssize_max] entries, so an index within the
    list always fits. *)
Definition list_pop {A} (l : list A) (i : Z) : outcome (A * list A) :=
  match py_index (length l) i with
  | Some k =>
      match l !! k with
      | Some x => Returns (x, delete k l)
      | None => Raises IndexError
      end
  | None =>
      if decide (- ssize_max - 1 ≤ i ≤ ssize_max)%Z then Raises IndexError
      else Raises OverflowError
  end.

(** ** The order of a dict

    A dict is the finite map of its entries together with the order in
    which it lists its keys: the order in which they were first inserted,
    as a dict of Python 3.7 or later keeps it. This is the encounter order
    by which the specification breaks ties. *)

(** The keys after [d[key] = ...]: a new key comes last, a key the dict has
    keeps its place. *)
Definition key_insert (keys : list nat) (key : nat) : list nat :=
  if decide (key ∈ keys) then keys else keys ++ [key].

(** [d.items()] *)
Definition dict_items {V} (keys : list nat) (d : gmap nat V) : list (nat * V) :=
  omap (λ key, (λ value, (key, value)) <$> d !! key) keys.

(** [keys] is the order of the dict whose entries are [d]. *)
Definition lists_keys {V} (keys : list nat) (d : gmap nat V) : Prop :=
  NoDup keys ∧ ∀ key, key ∈ keys ↔ is_Some (d !! key).

(** ** [src/utils.py]: the ranking aggregator *)

Section Aggregator.
Context {K : Type} `{Countable K} {score : Type}.

(** An entry of [result] is [(var_index, score)]: [var_index] is a column
    position, a natural number, and indexes [variable_names].

    The state the aggregator leaves behind: the rank map it returns, the
    caller's list as the call left it, and the argument of every call of
    the scoring strategy, oldest first. *)
Record ranked : Type := Ranked {
  result_dict : gmap K (nat * score);
  result_left : list (nat * score);
  strategy_calls : list (list score)
}.

(** The [while len(result) > 1] loop, with the final assignment of
    [result[0]]. Every iteration pops one entry, so [fuel] iterations are
    enough for a list of [fuel + 1] entries. *)
Fixpoint ranking_loop (variable_names : list K) (scoring_strategy : list score → Z)
    (fuel : nat) (result : list (nat * score)) (rank : nat)
    (result_dict : gmap K (nat * score)) (calls : list (list score))
    : outcome ranked :=
  if decide (1 < length result) then
    match fuel with
    | O => NoReturn
    | S fuel' =>
        let scores := result.*2 in
        let best_index := scoring_strategy scores in
        '(var, score, result') ← list_pop result best_index;
        name ← getitem variable_names (Z.of_nat var);
        ranking_loop variable_names scoring_strategy fuel' result' (S rank)
          (<[name := (rank, score)]> result_dict) (calls ++ [scores])
    end
  else
    '(var, score) ← getitem result 0%Z;
    name ← getitem variable_names (Z.of_nat var);
    Returns (Ranked (<[name := (rank, score)]> result_dict) result calls).

Definition convert_result_list_to_dict (result : list (nat * score))
    (variable_names : list K) (scoring_strategy : list score → Z)
    : outcome ranked :=
  if decide (length result = 0) then Returns (Ranked ∅ result [])
  else ranking_loop variable_names scoring_strategy (length result) result 0 ∅ [].
End Aggregator.
Arguments ranked : clear implicits.
Arguments ranked K {_ _} score.

(** ** [src/sequential_selection.py]: the scoring engines *)

Section Engines.
Context {dataset score : Type}.

(** What the selection iterator yields: [(var, training_data, scoring_data)]. *)
Definition triple : Type := nat * dataset * dataset.

(** What one pass of an engine hands back: the [{var: score}] dict, the
    arguments of every call of [scoring_fn] in the order made, and the
    order in which the dict lists its keys. *)
Record pass : Type := Pass {
  pass_result : gmap nat score;
  pass_calls : list (dataset * dataset);
  pass_keys : list nat
}.

Variable scoring_fn : dataset → dataset → outcome score.

(** The [for] loop of [_singlethread_iteration]. *)
Fixpoint singlethread_loop (items : list triple) (result : gmap nat score)
    (calls : list (dataset * dataset)) (keys : list nat) : outcome pass :=
  match items with
  | [] => Returns (Pass result calls keys)
  | (var, training_data, scoring_data) :: rest =>
      score ← scoring_fn training_data scoring_data;
      singlethread_loop rest (<[var := score]> result)
        (calls ++ [(training_data, scoring_data)]) (key_insert keys var)
  end.

Definition _singlethread_iteration (selection_iterator : list triple)
    : outcome pass :=
  singlethread_loop selection_iterator ∅ [] [].

(** *** The worker pool

    A worker process runs [_multithreaded_runner]: it waits in
    [in_queue.get()], holds the item it got while it scores it, has left
    its loop on the [None] sentinel, or has died of an exception of
    [func]. *)
Inductive worker : Type :=
  | Waiting
  | Holding (in_args : triple)
  | Exited
  | Crashed.

(** The parent and its pool: what the parent still has to put (the items,
    then one [None] per worker), both queues, the workers, and the calls
    of [scoring_fn] made so far. *)
Record pool : Type := Pool {
  to_put : list (option triple);
  in_queue : list (option triple);
  out_queue : list (nat * score);
  workers : list worker;
  pool_calls : list (dataset * dataset)
}.

(** One atomic action of one process. [Put] is the parent's
    [in_queue.put], [Get w] and [Score w] are worker [w]'s [in_queue.get()]
    and [out_queue.put((in_args[0], func( *in_args[1:])))], [Respawn w] is
    the pool putting a fresh process in the place of a dead one (its
    maintenance thread does so from Python 2.7 on; a run without it is a
    run of every version). *)
Inductive event : Type :=
  | Put
  | Get (w : nat)
  | Score (w : nat)
  | Respawn (w : nat).

Definition pool_step (njobs : nat) (p : pool) (ev : event) : option pool :=
  match ev with
  | Put =>
      match to_put p with
      | item :: rest =>
          (* [mp.Queue(maxsize=njobs)]: a full queue blocks the parent *)
          if decide (length (in_queue p) < njobs) then
            Some (Pool rest (in_queue p ++ [item]) (out_queue p) (workers p)
                    (pool_calls p))
          else None
      | [] => None
      end
  | Get w =>
      match workers p !! w, in_queue p with
      | Some Waiting, in_args :: queue =>
          let next :=
            match in_args with
            | None => Exited
            | Some item => Holding item
            end in
          Some (Pool (to_put p) queue (out_queue p) (<[w := next]> (workers p))
                  (pool_calls p))
      | _, _ => None
      end
  | Score w =>
      match workers p !! w with
      | Some (Holding (var, training_data, scoring_data)) =>
          let calls := pool_calls p ++ [(training_data, scoring_data)] in
          match scoring_fn training_data scoring_data with
          | Returns score =>
              Some (Pool (to_put p) (in_queue p) (out_queue p ++ [(var, score)])
                      (<[w := Waiting]> (workers p)) calls)
          | Raises _ =>
              Some (Pool (to_put p) (in_queue p) (out_queue p)
                      (<[w := Crashed]> (workers p)) calls)
          | NoReturn => None
          end
      | _ => None
      end
  | Respawn w =>
      match workers p !! w with
      | Some Crashed =>
          Some (Pool (to_put p) (in_queue p) (out_queue p)
                  (<[w := Waiting]> (workers p)) (pool_calls p))
      | _ => None
      end
  end.

(** The pool driven by a schedule, the interleaving the operating system
    chose; [None] when the schedule asks for an action that is not enabled. *)
Fixpoint pool_run (njobs : nat) (schedule : list event) (p : pool) : option pool :=
  match schedule with
  | [] => Some p
  | ev :: rest => pool_step njobs p ev ≫= pool_run njobs rest
  end.

(** [pool.join()] returns once the parent has put everything and every
    worker process has ended. *)
Definition worker_ended (w : worker) : bool :=
  match w with
  | Exited | Crashed => true
  | Waiting | Holding _ => false
  end.

Definition pool_joined (p : pool) : bool :=
  bool_decide (to_put p = []) && forallb worker_ended (workers p).

(** [while not out_queue.empty(): res = out_queue.get(); result[res[0]] = res[1]] *)
Definition drain (queue : list (nat * score)) : gmap nat score :=
  foldl (λ result res, <[res.1 := res.2]> result) ∅ queue.

(** The order of the keys of that dict: the order in which the variables
    first came out of the result queue. *)
Definition drain_keys (queue : list (nat * score)) : list nat :=
  foldl (λ keys res, key_insert keys res.1) [] queue.

Definition pool_init (selection_iterator : list triple) (njobs : nat) : pool :=
  Pool ((Some <$> selection_iterator) ++ replicate njobs None) [] []
    (replicate njobs Waiting) [].

(** [_multithread_iteration] under a schedule. [mp.Pool(njobs)] refuses a
    process count below one with a [ValueError]. A schedule that does not
    drive the pool to the point where [pool.join()] returns is a run that
    has not returned. *)
Definition _multithread_iteration (schedule : list event)
    (selection_iterator : list triple) (njobs : Z) : outcome pass :=
  if decide (njobs < 1)%Z then Raises ValueError
  else
    let n := Z.to_nat njobs in
    match pool_run n schedule (pool_init selection_iterator n) with
    | Some p =>
        if pool_joined p then
          Returns (Pass (drain (out_queue p)) (pool_calls p)
                     (drain_keys (out_queue p)))
        else NoReturn
    | None => NoReturn
    end.
End Engines.
Arguments triple : clear implicits.
Arguments pass : clear implicits.
Arguments pool : clear implicits.
Arguments worker : clear implicits.

(** ** Doubles

    A double is the rational it denotes. An arithmetic operation on doubles
    gives the exact result rounded to the nearest double, ties to the even
    significand: 53 significant bits, exponents down to [2 ^ -1074]. Results
    beyond the largest double do not arise where this is used. *)

Definition pow2 (e : Z) : Q :=
  if (0 <=? e)%Z then inject_Z (2 ^ e) else (/ inject_Z (2 ^ (- e)))%Q.

(** The integer nearest to [q], the even one of two that are equally near. *)
Definition round_half_even (q : Q) : Z :=
  let below := Qfloor q in
  match (q - inject_Z below ?= 1 # 2)%Q with
  | Lt => below
  | Gt => (below + 1)%Z
  | Eq => if Z.even below then below else (below + 1)%Z
  end.

(** The exponent [e] of the last place of the double nearest to [q]:
    [2 ^ 52 ≤ |q| / 2 ^ e < 2 ^ 53], and [-1074] for the subnormal ones. *)
Definition double_exponent (q : Q) : Z :=
  let log := (Z.log2 (Z.abs (Qnum q)) - Z.log2 (Z.pos (Qden q)))%Z in
  let log := if Qle_bool (pow2 log) (Qabs q) then log else (log - 1)%Z in
  Z.max (log - 52) (-1074).

Definition round_double (q : Q) : Q :=
  if Qeq_bool q 0 then 0%Q
  else
    let e := double_exponent q in
    (inject_Z (round_half_even (q / pow2 e)) * pow2 e)%Q.

(** ** [src/sequential_selection.py]: the orchestrator *)

Section Orchestrator.
Context {K : Type} `{Countable K} {data dataset score : Type}.

(** [np.average], [mp.cpu_count()] and [len(training_data[0])]. *)
Variable np_average : list score → score.
Variable cpu_count : nat.
Variable len_inputs : data → nat.

(** A selection strategy object, as the orchestrator uses it:
    [generate_datasets([])] and the triples its iteration yields. *)
Record strategy : Type := Strategy {
  generate_datasets_nil : dataset * dataset;
  selection_iterator : list (triple dataset)
}.

(** Modelled from the spec: [ImportanceResult] of [src/result.py], which is
    not among the sources. It records the baseline score once and accepts
    repeated appends of a round's rank map and winning variable. *)
Record ImportanceResult : Type := Build_ImportanceResult {
  method : string;
  result_names : list K;
  original_score : score;
  round_results : list (gmap K (nat * score) * K)
}.

Definition add_new_results (result_obj : ImportanceResult)
    (next_result : gmap K (nat * score)) (next_important_variable : K)
    : ImportanceResult :=
  Build_ImportanceResult (method result_obj) (result_names result_obj)
    (original_score result_obj)
    (round_results result_obj ++ [(next_result, next_important_variable)]).

(** Modelled from the spec: [add_ranks_to_dict], which the orchestrator
    imports from [src/utils.py] and [src/utils.py] does not define. It is
    the ranking aggregator over a score map: the aggregator of
    [src/utils.py] run on the entries of the map in the order the map
    lists them ([keys], the order of the dict), with the rank map as its
    result. *)
Definition add_ranks_to_dict (keys : list nat) (result : gmap nat score)
    (variable_names : list K) (scoring_strategy : list score → Z)
    : outcome (gmap K (nat * score)) :=
  ranked ← convert_result_list_to_dict (dict_items keys result) variable_names
             scoring_strategy;
  Returns (result_dict ranked).

(** [int(len(training_data[0]) * subsample) if subsample <= 1 else subsample].
    [subsample] is the number as the caller writes it, which as a float is
    the double nearest to it; the product of the two doubles is the rounded
    exact product, and [int] drops the fraction. (The number of events is
    below [2 ^ 53] in any data a machine holds, where the int and its double
    are the same number.) *)
Definition resolve_subsample (training_data : data) (subsample : Q) : Q :=
  if Qle_bool (round_double subsample) 1 then
    let product :=
      round_double
        (round_double (inject_Z (Z.of_nat (len_inputs training_data))) *
         round_double subsample) in
    inject_Z (Z.quot (Qnum product) (Z.pos (Qden product)))
  else subsample.

(** [mp.cpu_count() + njobs if njobs <= 0 else njobs] *)
Definition resolve_njobs (njobs : Z) : Z :=
  if decide (njobs ≤ 0)%Z then (Z.of_nat cpu_count + njobs)%Z else njobs.

(** [for var, score in result_i.items(): result[var].append(score)] *)
Fixpoint append_scores (items : list (nat * score))
    (result : gmap nat (list score)) : outcome (gmap nat (list score)) :=
  match items with
  | [] => Returns result
  | (var, score) :: rest =>
      match result !! var with
      | Some scores => append_scores rest (<[var := scores ++ [score]]> result)
      | None => Raises KeyError
      end
  end.

(** The [if len(result) == 0: ... else: ...] of the bootstrap loop, on the
    entries of [result]. A dict has each of its variables once, so neither
    the entries nor the [KeyError] depend on the order in which the items
    of [result_i] come; the order of the keys of [result] is kept by the
    loop. *)
Definition record_scores (result : gmap nat (list score))
    (result_i : gmap nat score) : outcome (gmap nat (list score)) :=
  if decide (size result = 0) then
    Returns (foldl (λ result item, <[item.1 := [item.2]]> result) result
               (map_to_list result_i))
  else append_scores (map_to_list result_i) result.

(** [min(next_result.keys(), key=lambda key: next_result[key][0])]: the
    first key of least rank, a [ValueError] on an empty dict. The ranks of
    a rank map of the aggregator are pairwise distinct, so it has one key
    of least rank, whatever the order in which [min] meets the keys. *)
Definition min_rank_key (next_result : gmap K (nat * score)) : outcome K :=
  match map_to_list next_result with
  | [] => Raises ValueError
  | first :: rest =>
      Returns (foldl (λ best item, if decide (item.2.1 < best.2.1) then item else best)
                 first rest).1
  end.

(** [np.flatnonzero(variable_names == best_var)[0]] *)
Definition first_index (variable_names : list K) (best_var : K) : outcome nat :=
  match list_find (λ name, name = best_var) variable_names with
  | Some (index, _) => Returns index
  | None => Raises IndexError
  end.

Section Run.
Variables (training_data scoring_data : data).
Variable scoring_fn : dataset → dataset → outcome score.
Variable scoring_strategy : list score → Z.
Variable selection_strategy :
  data → data → nat → list nat → nat → Q → strategy.
Variable variable_names : list K.
Variable nbootstrap : nat.
Variable subsample : Q.
Variable njobs : Z.
(** The interleaving of the pool in pass [i] of round [round]. *)
Variable schedules : nat → nat → list event.

(** One bootstrap pass: the strategy of the pass and the engine that
    [njobs] selects. *)
Definition scoring_pass (round : nat) (important_vars : list nat) (i : nat)
    : outcome (pass dataset score) :=
  let selection_iter :=
    selection_strategy training_data scoring_data (length variable_names)
      important_vars i subsample in
  if decide (njobs = 1%Z) then
    _singlethread_iteration scoring_fn (selection_iterator selection_iter)
  else
    _multithread_iteration scoring_fn (schedules round i)
      (selection_iterator selection_iter) njobs.

(** [for i in range(nbootstrap)], on the entries of [result] and the order
    of its keys: the first pass to bring any variable fills the empty dict
    in the order of its own dict, and the later passes append to the lists
    that are there. *)
Fixpoint bootstrap_loop (round : nat) (important_vars : list nat)
    (indices : list nat) (result : gmap nat (list score)) (keys : list nat)
    : outcome (gmap nat (list score) * list nat) :=
  match indices with
  | [] => Returns (result, keys)
  | i :: rest =>
      result_i ← scoring_pass round important_vars i;
      result' ← record_scores result (pass_result result_i);
      bootstrap_loop round important_vars rest result'
        (if decide (size result = 0) then pass_keys result_i else keys)
  end.

(** The body of [for _ in range(nimportant_vars)], on the pair of
    [important_vars] and [result_obj]. *)
Definition selection_round (round : nat)
    (state : list nat * ImportanceResult) : outcome (list nat * ImportanceResult) :=
  let '(important_vars, result_obj) := state in
  '(result, keys) ← bootstrap_loop round important_vars (seq 0 nbootstrap) ∅ [];
  let avg_result := np_average <$> result in
  next_result ← add_ranks_to_dict keys avg_result variable_names
                  scoring_strategy;
  best_var ← min_rank_key next_result;
  best_index ← first_index variable_names best_var;
  Returns (important_vars ++ [best_index],
           add_new_results result_obj next_result best_var).

Fixpoint selection_rounds (rounds : list nat)
    (state : list nat * ImportanceResult) : outcome (list nat * ImportanceResult) :=
  match rounds with
  | [] => Returns state
  | round :: rest => selection_round round state ≫= selection_rounds rest
  end.
End Run.

(** [sequential_selection], from the point where the data, the scoring
    strategy and the variable names have been verified; [method] is the
    resolved method name. The state after the last round is returned whole:
    [result_obj] is what the caller gets, [important_vars] the history. *)
Definition sequential_selection_state (training_data scoring_data : data)
    (scoring_fn : dataset → dataset → outcome score)
    (scoring_strategy : list score → Z)
    (selection_strategy : data → data → nat → list nat → nat → Q → strategy)
    (variable_names : list K) (nimportant_vars : option nat) (method : string)
    (nbootstrap : nat) (subsample : Q) (njobs : Z)
    (schedules : nat → nat → list event)
    : outcome (list nat * ImportanceResult) :=
  let nimportant_vars := default (length variable_names) nimportant_vars in
  let subsample := resolve_subsample training_data subsample in
  let njobs := resolve_njobs njobs in
  let important_vars := [] in
  let num_vars := length variable_names in
  let '(training, scoring) :=
    generate_datasets_nil
      (selection_strategy training_data scoring_data num_vars important_vars 0
         subsample) in
  original_score ← scoring_fn training scoring;
  let result_obj := Build_ImportanceResult method variable_names original_score [] in
  selection_rounds training_data scoring_data scoring_fn scoring_strategy
    selection_strategy variable_names nbootstrap subsample njobs schedules
    (seq 0 nimportant_vars) (important_vars, result_obj).

Definition sequential_selection (training_data scoring_data : data)
    (scoring_fn : dataset → dataset → outcome score)
    (scoring_strategy : list score → Z)
    (selection_strategy : data → data → nat → list nat → nat → Q → strategy)
    (variable_names : list K) (nimportant_vars : option nat) (method : string)
    (nbootstrap : nat) (subsample : Q) (njobs : Z)
    (schedules : nat → nat → list event) : outcome ImportanceResult :=
  state ← sequential_selection_state training_data scoring_data scoring_fn
            scoring_strategy selection_strategy variable_names nimportant_vars
            method nbootstrap subsample njobs schedules;
  Returns state.2.
End Orchestrator.
Arguments strategy : clear implicits.
Arguments ImportanceResult : clear implicits.
Arguments ImportanceResult K {_ _} score.

(** ** The ranking of the specification

    The algorithm in the words of the specification, to compare the
    aggregator of [src/utils.py] with: ask the comparator for the best entry
    among those not yet ranked, rank it next, remove it from the remaining
    pool, and go on until one entry remains, which is ranked last. The
    result lists the entries in the order they are ranked; [None] when the
    comparator answers with an index outside the pool, or when there is no
    entry at all. *)

Section RankingOrder.
Context {K : Type} `{Countable K} {score : Type}.

Fixpoint ranking_order_from (comparator : list score → Z) (fuel : nat)
    (remaining : list (nat * score)) : option (list (nat * score)) :=
  match remaining with
  | [] => None
  | [last] => Some [last]
  | _ =>
      match fuel with
      | O => None
      | S fuel' =>
          best ← py_index (length remaining) (comparator remaining.*2);
          entry ← remaining !! best;
          (entry ::.) <$> ranking_order_from comparator fuel' (delete best remaining)
      end
  end.

Definition ranking_order (comparator : list score → Z)
    (scores : list (nat * score)) : option (list (nat * score)) :=
  ranking_order_from comparator (length scores) scores.

(** The pools the comparator is shown on the way: all of them but the
    last, of one entry, which is ranked without asking. *)
Fixpoint ranking_pools (comparator : list score → Z) (fuel : nat)
    (remaining : list (nat * score)) : list (list score) :=
  match remaining with
  | [] | [_] => []
  | _ =>
      match fuel with
      | O => []
      | S fuel' =>
          match py_index (length remaining) (comparator remaining.*2) with
          | Some best =>
              remaining.*2 ::
              ranking_pools comparator fuel' (delete best remaining)
          | None => []
          end
      end
  end.

(** The rank map of an order: the entry ranked [k]-th gets rank
    [rank + k], under the name of its variable. *)
Fixpoint rank_entries (variable_names : list K) (rank : nat)
    (order : list (nat * score)) (ranks : gmap K (nat * score))
    : gmap K (nat * score) :=
  match order with
  | [] => ranks
  | (var, score) :: rest =>
      rank_entries variable_names (S rank) rest
        (match variable_names !! var with
         | Some name => <[name := (rank, score)]> ranks
         | None => ranks
         end)
  end.
End RankingOrder.

(** ** Concrete instances

    Scores are rationals here; the minimum-is-best comparator answers with
    the first index of a least score, as [np.argmin] does. *)

Fixpoint argmin_from (best : Q) (best_index index : Z) (scores : list Q) : Z :=
  match scores with
  | [] => best_index
  | score :: rest =>
      if Qlt_le_dec score best then argmin_from score index (index + 1)%Z rest
      else argmin_from best best_index (index + 1)%Z rest
  end.

Definition argmin (scores : list Q) : Z :=
  match scores with
  | [] => 0%Z
  | score :: rest => argmin_from score 0%Z 1%Z rest
  end.

Definition names_abc : list string := ["A"; "B"; "C"]%string.

(** [{A: 0.9, B: 0.5, C: 0.7}], as the list of [(var_index, score)]. *)
Definition scores_abc : list (nat * Q) := [(0, (9 # 10)%Q); (1, (5 # 10)%Q); (2, (7 # 10)%Q)].

(** ** The bookkeeping of a pool run

    Where the triples of a pass are while the pool runs: not yet put, in the
    request queue, in the hands of a worker, or scored. *)

Section PoolBookkeeping.
Context {dataset score : Type}.
Variable scoring_fn : dataset → dataset → outcome score.

Definition held (w : worker dataset) : option (triple dataset) :=
  match w with
  | Holding in_args => Some in_args
  | Waiting | Exited | Crashed => None
  end.

Definition pending_items (p : pool dataset score) : list (triple dataset) :=
  omap id (to_put p) ++ omap id (in_queue p) ++ omap held (workers p).

(** [in_args[1:]], the arguments [func] is applied to. *)
Definition triple_data (item : triple dataset) : dataset * dataset :=
  (item.1.2, item.2).

(** What scoring a triple adds to the result queue: its variable with the
    score, and nothing when [scoring_fn] does not return. *)
Definition scored_entry (item : triple dataset) : option (nat * score) :=
  match scoring_fn item.1.2 item.2 with
  | Returns score => Some (item.1.1, score)
  | Raises _ | NoReturn => None
  end.

(** Every triple of the pass is pending or has been scored, exactly once;
    the calls of [scoring_fn] and the result queue are those of the scored
    triples, in the order they were scored. *)
Definition pool_invariant (items : list (triple dataset))
    (p : pool dataset score) : Prop :=
  ∃ scored,
    pending_items p ++ scored ≡ₚ items ∧
    pool_calls p = triple_data <$> scored ∧
    out_queue p = omap scored_entry scored.

(** The request queue and what is still to be put, one after the other,
    are the triples not yet taken followed by sentinels; once a worker has
    left on a sentinel, only sentinels remain. *)
Definition queue_invariant (p : pool dataset score) : Prop :=
  ∃ items sentinels,
    in_queue p ++ to_put p = (Some <$> items) ++ replicate sentinels None ∧
    (Exited ∈ workers p → items = []).

End PoolBookkeeping.

(** ** A concrete pass

    A data subset is the list of the columns it keeps; the score of a model
    is a tenth of the sum of the column indices it was trained on. The
    brittle scoring function raises when column 1 is among them. *)

Definition toy_scoring_fn (training_data scoring_data : list nat) : outcome Q :=
  Returns (Z.of_nat (sum_list training_data) # 10)%Q.

Definition brittle_scoring_fn (training_data scoring_data : list nat) : outcome Q :=
  if decide (1 ∈ training_data) then Raises ScoringError
  else toy_scoring_fn training_data scoring_data.

Definition two_triples : list (triple (list nat)) :=
  [(0, [0], [0]); (1, [1], [1])].

(** Both triples are put and taken, worker 0 scores the first, worker 1
    dies on the second, and worker 0 then takes a sentinel. *)
Definition crash_schedule : list event :=
  [Put; Put; Get 0; Get 1; Score 0; Score 1; Put; Put; Get 0].



(** ** The scores of a variable over the bootstrap passes

    What the bootstrap loop is to collect: for each variable, its scores in
    the passes that scored it, in the order of the passes. *)

Definition collected {score} (passes : list (gmap nat score)) (var : nat)
    : list score :=
  omap (λ result_i : gmap nat score, result_i !! var) passes.

Definition collects {score} (passes : list (gmap nat score))
    (result : gmap nat (list score)) : Prop :=
  ∀ var, result !! var =
           match collected passes var with
           | [] => None
           | scores => Some scores
           end.

(** ** A concrete run

    Modelled from the spec: the forward selection strategy of
    [src/selection_strategies.py], which is not among the sources. Its
    candidates are the variables of the registry that are not in the
    history; a candidate is scored on the columns of the history and its
    own. The data pair carries nothing here, and the columns say it all. *)

Definition forward_strategy (training_data scoring_data : unit) (num_vars : nat)
    (important_vars : list nat) (i : nat) (subsample : Q) : strategy (list nat) :=
  Strategy ([], [])
    ((λ var, (var, important_vars ++ [var], important_vars ++ [var])) <$>
       filter (λ var, var ∉ important_vars) (seq 0 num_vars)).

(** The arithmetic mean of rationals, for [np.average]. *)
Definition Q_average (scores : list Q) : Q :=
  (foldr Qplus 0 scores / inject_Z (Z.of_nat (length scores)))%Q.

(** Three variables, one bootstrap pass, one worker. *)
Definition toy_selection (nimportant_vars : option nat)
    : outcome (list nat * ImportanceResult string Q) :=
  sequential_selection_state Q_average 8 (λ _ : unit, 100) tt tt toy_scoring_fn
    argmin forward_strategy names_abc nimportant_vars "forward" 1 1%Q 1%Z
    (λ _ _, []).

Definition toy_run (nimportant_vars : option nat)
    : outcome (ImportanceResult string Q) :=
  sequential_selection Q_average 8 (λ _ : unit, 100) tt tt toy_scoring_fn
    argmin forward_strategy names_abc nimportant_vars "forward" 1 1%Q 1%Z
    (λ _ _, []).

(** The first round of that run. *)
Definition toy_round : outcome (list nat * ImportanceResult string Q) :=
  selection_round Q_average tt tt toy_scoring_fn argmin forward_strategy
    names_abc 1 1%Q 1%Z (λ _ _, []) 0
    ([], Build_ImportanceResult "forward" names_abc 0%Q []).

(** ** A round of two bootstrap passes

    A strategy in the manner of the forward strategy whose scoring subsets
    change with the bootstrap index: in pass [i], a candidate is scored on
    [i] copies of the column that mirrors it in the registry. The scoring
    function counts a tenth for every column index of the training subset
    and three tenths for every column index of the scoring subset, so the
    two passes of a round order the candidates differently. *)




(** ** [src/utils.py]: [get_data_subset]

    A table is kept by columns, which is all that column subsetting looks
    at: a pandas dataframe is the list of its named columns, a
    two-dimensional numpy array the list of its columns. Anything else the
    caller may pass is the third case. *)

Inductive container (K A : Type) : Type :=
  | DataFrame (columns : list (K * list A))
  | NdArray (columns : list (list A))
  | OtherObject.
Arguments DataFrame {K A} columns.
Arguments NdArray {K A} columns.
Arguments OtherObject {K A}.

(** What a call of [get_data_subset] does. *)
Inductive subset_outcome (A : Type) : Type :=
  | Subset (data_subset : A)
  | InvalidDataException
  | SubsetIndexError.
Arguments Subset {A} data_subset.
Arguments InvalidDataException {A}.
Arguments SubsetIndexError {A}.

(** [array[columns]] for a list of integers: the entries at these
    positions, in this order, under the index rules of Python sequences;
    nothing when a position is out of range. *)
Definition take_indices {X} (array : list X) (columns : list Z) : option (list X) :=
  mapM (λ column, py_index (length array) column ≫= (array !!.)) columns.

(** [data.loc[:, labels]]: for each label in turn, every column that bears
    it. *)
Definition loc_columns {K A} `{EqDecision K} (columns : list (K * list A))
    (labels : list K) : list (K * list A) :=
  labels ≫= λ label, filter (λ column, column.1 = label) columns.

Definition get_data_subset {K A} `{EqDecision K} (data : container K A)
    (columns : list Z) : subset_outcome (container K A) :=
  match data with
  | DataFrame named =>
      match take_indices named.*1 columns with
      | Some labels => Subset (DataFrame (loc_columns named labels))
      | None => SubsetIndexError
      end
  | NdArray array =>
      match take_indices array columns with
      | Some selected => Subset (NdArray selected)
      | None => SubsetIndexError
      end
  | OtherObject => InvalidDataException
  end.

(** Four triples on which the brittle scoring function raises, and an
    interleaving in which both workers of a pool of two die on the first
    two while the parent fills the request queue with the other two. *)
Definition four_brittle_triples : list (triple (list nat)) :=
  [(0, [0; 1], [0; 1]); (1, [1], [1]); (2, [1; 2], [1; 2]); (3, [1; 3], [1; 3])].

Definition blocking_schedule : list event :=
  [Put; Put; Get 0; Get 1; Score 0; Score 1; Put; Put].

(** A table of three columns of two cells, as an array and as a dataframe. *)
Definition sample_array : list (list nat) := [[1; 2]; [3; 4]; [5; 6]].

Definition sample_frame : list (string * list nat) :=
  [("A", [1; 2]); ("B", [3; 4]); ("C", [5; 6])]%string.

(** * Properties *)

(** ** Python sequences *)

Lemma py_index_lt n i k : py_index n i = Some k → k < n.
Proof.
  unfold py_index. repeat case_decide; intros [=]; subst; lia.
Qed.

Lemma py_index_of_nat n k : k < n → py_index n (Z.of_nat k) = Some k.
Proof.
  intros Hk. unfold py_index. rewrite decide_True by lia.
  by rewrite Nat2Z.id.
Qed.

Lemma getitem_of_nat {A} (l : list A) k :
  getitem l (Z.of_nat k) =
    match l !! k with Some x => Returns x | None => Raises IndexError end.
Proof.
  unfold getitem. destruct (l !! k) as [x|] eqn:Hk.
  - rewrite py_index_of_nat by (by eapply lookup_lt_Some). simpl. by rewrite Hk.
  - apply lookup_ge_None in Hk. unfold py_index.
    rewrite decide_False by lia. by rewrite decide_False by lia.
Qed.

Lemma list_pop_Returns {A} (l : list A) i x l' :
  list_pop l i = Returns (x, l') ↔
  ∃ k, py_index (length l) i = Some k ∧ l !! k = Some x ∧ l' = delete k l.
Proof.
  unfold list_pop. split.
  - destruct (py_index _ _) as [k|]; [|by case_decide].
    destruct (l !! k) as [y|] eqn:Hy; [|done].
    intros [= <- <-]. eauto.
  - intros (k & -> & -> & ->). done.
Qed.

(** ** Worker-count resolution *)

(** C7: a negative worker count [n] resolves to the host concurrency plus
    [n], so [-1] on a host of concurrency [8] resolves to [7]; a positive
    worker count is kept as it is. *)
Theorem resolve_njobs_negative_positive :
  (∀ cpu_count n, (n < 0)%Z → resolve_njobs cpu_count n = (Z.of_nat cpu_count + n)%Z) ∧
  resolve_njobs 8 (-1) = 7%Z ∧
  (∀ cpu_count n, (0 < n)%Z → resolve_njobs cpu_count n = n).
Proof.
  split; [|split].
  - intros cpu_count n Hn. unfold resolve_njobs. by rewrite decide_True by lia.
  - reflexivity.
  - intros cpu_count n Hn. unfold resolve_njobs. by rewrite decide_False by lia.
Qed.

Lemma resolve_njobs_negative_positive_witness :
  resolve_njobs 8 (-3) = 5%Z ∧ resolve_njobs 8 4 = 4%Z.
Proof.
  destruct resolve_njobs_negative_positive as (Hneg & _ & Hpos).
  split; [apply (Hneg 8 (-3)%Z); lia | apply (Hpos 8 4%Z); lia].
Defined.

(** C9: a worker count of exactly [0] takes the resolution branch and
    resolves to the host concurrency plus zero; on a host of concurrency at
    least one this is never zero workers. *)
Theorem resolve_njobs_zero cpu_count :
  resolve_njobs cpu_count 0 = (Z.of_nat cpu_count + 0)%Z ∧
  (1 ≤ cpu_count → (1 ≤ resolve_njobs cpu_count 0)%Z).
Proof.
  unfold resolve_njobs. rewrite decide_True by lia. split; [done|lia].
Qed.

Lemma resolve_njobs_zero_witness :
  resolve_njobs 8 0 = (8 + 0)%Z ∧ (1 ≤ resolve_njobs 8 0)%Z.
Proof.
  destruct (resolve_njobs_zero 8) as [H1 H2]. split; [exact H1|apply H2; lia].
Defined.

(** ** The ranking aggregator *)

(** C10: on the empty score input the aggregator returns the empty rank
    map, and the scoring strategy has not been called. *)
Theorem convert_result_list_to_dict_empty {K} `{Countable K} {score}
    (variable_names : list K) (scoring_strategy : list score → Z) :
  convert_result_list_to_dict [] variable_names scoring_strategy =
    Returns (Ranked ∅ [] []).
Proof. reflexivity. Qed.

Section AggregatorFacts.
Context {K : Type} `{Countable K} {score : Type}.
Variable variable_names : list K.
Variable scoring_strategy : list score → Z.

Lemma ranking_order_from_length fuel : ∀ (remaining order : list (nat * score)),
  ranking_order_from scoring_strategy fuel remaining = Some order →
  length order = length remaining.
Proof.
  induction fuel as [|fuel IH]; intros remaining order.
  - destruct remaining as [|e [|e' rest]]; simpl; [done| |done].
    by intros [= <-].
  - destruct remaining as [|e [|e' rest]]; [done|by intros [= <-]|].
    cbn -[py_index lookup delete length].
    destruct (py_index _ _) as [best|] eqn:Hbest; [|done]. simpl.
    destruct (_ !! best) as [entry|] eqn:Hentry; [|done]. simpl.
    destruct (ranking_order_from _ _ _) as [order'|] eqn:Horder; [|done].
    intros [= <-]. apply IH in Horder. simpl. rewrite Horder.
    rewrite length_delete; [|by eauto]. simpl. lia.
Qed.

Lemma ranking_order_from_step fuel (remaining : list (nat * score)) :
  1 < length remaining →
  ranking_order_from scoring_strategy (S fuel) remaining =
    best ← py_index (length remaining) (scoring_strategy remaining.*2);
    entry ← remaining !! best;
    (entry ::.) <$> ranking_order_from scoring_strategy fuel (delete best remaining).
Proof. destruct remaining as [|e [|e' rest]]; simpl; [lia|lia|done]. Qed.

Lemma ranking_pools_step fuel (remaining : list (nat * score)) best :
  1 < length remaining →
  py_index (length remaining) (scoring_strategy remaining.*2) = Some best →
  ranking_pools scoring_strategy (S fuel) remaining =
    remaining.*2 :: ranking_pools scoring_strategy fuel (delete best remaining).
Proof.
  intros Hlen Hbest. destruct remaining as [|e [|e' rest]]; simpl in *; [lia|lia|].
  by rewrite Hbest.
Qed.

Lemma ranking_order_from_perm fuel : ∀ (remaining order : list (nat * score)),
  ranking_order_from scoring_strategy fuel remaining = Some order →
  order ≡ₚ remaining.
Proof.
  induction fuel as [|fuel IH]; intros remaining order.
  - destruct remaining as [|e [|e' rest]]; simpl; [done| |done].
    by intros [= <-].
  - destruct (decide (1 < length remaining)) as [Hlen|Hlen].
    + rewrite ranking_order_from_step by done.
      destruct (py_index _ _) as [best|] eqn:Hbest; [|done]. simpl.
      destruct (_ !! best) as [entry|] eqn:Hentry; [|done]. simpl.
      destruct (ranking_order_from _ _ _) as [order'|] eqn:Horder; [|done].
      intros [= <-]. rewrite (IH _ _ Horder).
      symmetry. by apply delete_Permutation.
    + destruct remaining as [|e [|e' rest]]; simpl in *; [done| |lia].
      by intros [= <-].
Qed.

Lemma ranking_loop_last fuel (result : list (nat * score)) rank ranks calls :
  ¬ 1 < length result →
  ranking_loop variable_names scoring_strategy fuel result rank ranks calls =
    '(var, score) ← getitem result 0%Z;
    name ← getitem variable_names (Z.of_nat var);
    Returns (Ranked (<[name := (rank, score)]> ranks) result calls).
Proof. intros Hlen. destruct fuel; simpl; by rewrite decide_False. Qed.

Lemma ranking_loop_step fuel (result : list (nat * score)) rank ranks calls :
  1 < length result →
  ranking_loop variable_names scoring_strategy (S fuel) result rank ranks calls =
    '(var, score, result') ← list_pop result (scoring_strategy result.*2);
    name ← getitem variable_names (Z.of_nat var);
    ranking_loop variable_names scoring_strategy fuel result' (S rank)
      (<[name := (rank, score)]> ranks) (calls ++ [result.*2]).
Proof. intros Hlen. simpl. by rewrite decide_True. Qed.

Lemma ranking_loop_single fuel var s rank ranks calls :
  var < length variable_names →
  ranking_loop variable_names scoring_strategy fuel [(var, s)] rank ranks calls =
    Returns (Ranked (rank_entries variable_names rank [(var, s)] ranks)
               [(var, s)] calls).
Proof.
  intros Hvar. rewrite ranking_loop_last by (simpl; lia).
  change (getitem [(var, s)] 0%Z) with (@Returns (nat * score) (var, s)).
  cbn -[getitem]. rewrite getitem_of_nat.
  destruct (lookup_lt_is_Some_2 variable_names var Hvar) as [name Hname].
  by rewrite Hname.
Qed.

(** The loop of the aggregator ranks the entries in the order of the
    specification, leaves the entry ranked last in the caller's list, and
    has shown the scoring strategy every pool but the last. *)
Lemma ranking_loop_order fuel : ∀ (result : list (nat * score)) rank ranks calls order,
  ranking_order_from scoring_strategy fuel result = Some order →
  Forall (λ entry, entry.1 < length variable_names) result →
  ranking_loop variable_names scoring_strategy fuel result rank ranks calls =
    Returns (Ranked (rank_entries variable_names rank order ranks)
               (drop (length order - 1) order)
               (calls ++ ranking_pools scoring_strategy fuel result)).
Proof.
  induction fuel as [|fuel IH]; intros result rank ranks calls order Horder Hnames.
  - destruct result as [|[var s] [|e' rest]]; simpl in Horder; [done| |done].
    injection Horder as <-.
    apply Forall_cons_1 in Hnames as [Hvar _]. simpl in Hvar.
    rewrite ranking_loop_single by done. simpl. by rewrite app_nil_r.
  - destruct (decide (1 < length result)) as [Hlen|Hlen].
    + rewrite ranking_order_from_step in Horder by done.
      destruct (py_index _ _) as [best|] eqn:Hbest; [|done]. simpl in Horder.
      destruct (result !! best) as [[var s]|] eqn:Hentry; [|done]. simpl in Horder.
      destruct (ranking_order_from _ _ _) as [order'|] eqn:Horder'; [|done].
      injection Horder as <-.
      rewrite ranking_loop_step by done.
      rewrite (ranking_pools_step _ _ best) by done.
      assert (list_pop result (scoring_strategy result.*2) =
              Returns ((var, s), delete best result)) as ->.
      { apply list_pop_Returns. eauto. }
      assert (var < length variable_names) as Hvar.
      { eapply Forall_forall in Hnames; [|by eapply list_elem_of_lookup_2]. done. }
      cbn -[getitem ranking_loop ranking_pools]. rewrite getitem_of_nat.
      destruct (lookup_lt_is_Some_2 variable_names var Hvar) as [name Hname].
      rewrite Hname. cbn -[ranking_loop ranking_pools].
      erewrite IH; [|done|].
      * rewrite <- app_assoc. simpl.
        pose proof (ranking_order_from_length _ _ _ Horder') as Hlen'.
        assert (0 < length order') as Hpos.
        { rewrite Hlen'. rewrite length_delete by eauto. lia. }
        replace (length order' - 0) with (S (length order' - 1)) by lia.
        done.
      * by apply Forall_delete.
    + destruct result as [|[var s] [|e' rest]]; simpl in Hlen, Horder; [done| |lia].
      injection Horder as <-.
      apply Forall_cons_1 in Hnames as [Hvar _]. simpl in Hvar.
      rewrite ranking_loop_single by done. simpl. by rewrite app_nil_r.
Qed.

Lemma ranking_order_step_total fuel : ∀ remaining : list (nat * score),
  remaining ≠ [] →
  length remaining ≤ S fuel →
  (∀ scores, 1 < length scores →
     is_Some (py_index (length scores) (scoring_strategy scores))) →
  is_Some (ranking_order_from scoring_strategy fuel remaining).
Proof.
  induction fuel as [|fuel IH]; intros remaining Hne Hlen Hvalid.
  - destruct remaining as [|e [|e' rest]]; simpl in *; [done|by eexists|lia].
  - destruct (decide (1 < length remaining)) as [Hlong|Hshort].
    + rewrite ranking_order_from_step by done.
      destruct (Hvalid remaining.*2) as [best Hbest]; [by rewrite length_fmap|].
      rewrite length_fmap in Hbest. rewrite Hbest. simpl.
      pose proof (py_index_lt _ _ _ Hbest) as Hlt.
      destruct (lookup_lt_is_Some_2 remaining best Hlt) as [entry Hentry].
      rewrite Hentry. simpl.
      destruct (IH (delete best remaining)) as [order Horder]; [| |done|].
      * intros Hnil. apply (f_equal length) in Hnil.
        rewrite length_delete in Hnil by eauto. simpl in Hnil. lia.
      * rewrite length_delete by eauto. lia.
      * rewrite Horder. by eexists.
    + destruct remaining as [|e [|e' rest]]; simpl in *; [done|by eexists|lia].
Qed.

Lemma rank_entries_lookup_inv (order : list (nat * score)) :
  ∀ rank ranks name rk s,
  rank_entries variable_names rank order ranks !! name = Some (rk, s) →
  ranks !! name = Some (rk, s) ∨
  ∃ k var, order !! k = Some (var, s) ∧ rk = rank + k ∧
           variable_names !! var = Some name.
Proof.
  induction order as [|[var s'] order IH]; intros rank ranks name rk s; simpl.
  - by left.
  - intros Hlook. apply IH in Hlook as [Hlook|(k & var' & Hk & -> & Hvar')].
    + destruct (variable_names !! var) as [name'|] eqn:Hname'; [|by left].
      destruct (decide (name' = name)) as [->|Hne].
      * rewrite lookup_insert_eq in Hlook. injection Hlook as <- <-.
        right. exists 0, var. split_and!; [done|lia|done].
      * rewrite lookup_insert_ne in Hlook by done. by left.
    + right. exists (S k), var'. split_and!; [done|lia|done].
Qed.

Lemma rank_entries_lookup_fresh (order : list (nat * score)) :
  ∀ rank ranks name,
  (∀ var s, (var, s) ∈ order → variable_names !! var ≠ Some name) →
  rank_entries variable_names rank order ranks !! name = ranks !! name.
Proof.
  induction order as [|[var s'] order IH]; intros rank ranks name Hfresh; simpl.
  - done.
  - rewrite IH.
    + destruct (variable_names !! var) as [name'|] eqn:Hname'; [|done].
      rewrite lookup_insert_ne; [done|]. intros ->.
      by apply (Hfresh var s'); [left|].
    + intros var' s Hin. apply (Hfresh var' s). by right.
Qed.

Lemma rank_entries_lookup (order : list (nat * score)) :
  NoDup variable_names →
  ∀ rank ranks k var s name,
  NoDup order.*1 →
  order !! k = Some (var, s) →
  variable_names !! var = Some name →
  rank_entries variable_names rank order ranks !! name = Some (rank + k, s).
Proof.
  intros Hnames.
  induction order as [|[var' s'] order IH]; intros rank ranks k var s name Hvars Hk Hname.
  - done.
  - apply NoDup_cons in Hvars as [Hvar' Hvars]. destruct k as [|k]; simpl in Hk.
    + injection Hk as -> ->. simpl. rewrite Hname.
      rewrite rank_entries_lookup_fresh.
      * rewrite lookup_insert_eq. f_equal. f_equal. lia.
      * intros var2 s2 Hin Hname2.
        assert (var2 = var) as ->
          by exact (NoDup_lookup variable_names var2 var name Hnames Hname2 Hname).
        apply Hvar'. apply list_elem_of_fmap. by exists (var, s2).
    + simpl. erewrite IH; [|done..]. f_equal. f_equal. lia.
Qed.
End AggregatorFacts.

Lemma ranking_loop_drains {K} `{Countable K} {score} (variable_names : list K)
    (scoring_strategy : list score → Z) fuel :
  ∀ (result : list (nat * score)) rank ranks calls r,
  result ≠ [] →
  ranking_loop variable_names scoring_strategy fuel result rank ranks calls = Returns r →
  ∃ last, result_left r = [last] ∧ last ∈ result ∧
          length (strategy_calls r) = length calls + (length result - 1).
Proof.
  induction fuel as [|fuel IH]; intros result rank ranks calls r Hne.
  - destruct (decide (1 < length result)) as [Hlen|Hlen].
    + simpl. by rewrite decide_True.
    + rewrite ranking_loop_last by done.
      destruct result as [|[var s] [|e' rest]]; simpl in Hlen; [done| |lia].
      change (getitem [(var, s)] 0%Z) with (@Returns (nat * score) (var, s)).
      cbn -[getitem]. destruct (getitem variable_names _); [|done..].
      intros [= <-]. exists (var, s). simpl. split_and!; [done|by left|lia].
  - destruct (decide (1 < length result)) as [Hlen|Hlen].
    + rewrite ranking_loop_step by done.
      destruct (list_pop result _) as [[[var s] result']| |] eqn:Hpop; [|done..].
      apply list_pop_Returns in Hpop as (best & Hbest & Hentry & ->).
      cbn -[getitem ranking_loop].
      destruct (getitem variable_names _) as [name| |]; [|done..].
      cbn -[ranking_loop]. intros Hloop.
      assert (length (delete best result) = length result - 1) as Hdel.
      { rewrite length_delete by eauto. done. }
      apply IH in Hloop as (last & Hleft & Hin & Hcalls).
      * exists last. split_and!; [done|by eapply list_elem_of_delete_inv|].
        rewrite Hcalls, length_app, Hdel. simpl. lia.
      * intros Hnil. rewrite Hnil in Hdel. simpl in Hdel. lia.
    + rewrite ranking_loop_last by done.
      destruct result as [|[var s] [|e' rest]]; simpl in Hlen; [done| |lia].
      change (getitem [(var, s)] 0%Z) with (@Returns (nat * score) (var, s)).
      cbn -[getitem]. destruct (getitem variable_names _); [|done..].
      intros [= <-]. exists (var, s). simpl. split_and!; [done|by left|lia].
Qed.

(** C2: on a non-empty score input, with a comparator that answers within
    the pool it is shown, the aggregator returns, and what it returns is
    the ranking of the specification: the entry the comparator picks [k]-th
    among those not yet ranked has rank [k], counted from 0, the one left
    at the end has the last rank, every variable is paired with its own
    score, and the comparator has been shown the remaining pool each time
    and nothing else. In particular [{A: 0.9, B: 0.5, C: 0.7}] under the
    minimum-is-best comparator gives [B = (0, 0.5)], [C = (1, 0.7)],
    [A = (2, 0.9)]. *)
Theorem convert_result_list_to_dict_ranking :
  (∀ (K : Type) `(Countable K) (score : Type) (variable_names : list K)
     (scoring_strategy : list score → Z) (result order : list (nat * score)),
     ranking_order scoring_strategy result = Some order →
     Forall (λ entry, entry.1 < length variable_names) result →
     NoDup variable_names →
     NoDup result.*1 →
     ∃ r, convert_result_list_to_dict result variable_names scoring_strategy = Returns r ∧
          order ≡ₚ result ∧
          (∀ k var s, order !! k = Some (var, s) →
             ∃ name, variable_names !! var = Some name ∧
                     result_dict r !! name = Some (k, s)) ∧
          (∀ name k s, result_dict r !! name = Some (k, s) →
             ∃ var, order !! k = Some (var, s) ∧ variable_names !! var = Some name) ∧
          strategy_calls r = ranking_pools scoring_strategy (length result) result) ∧
  ranking_order argmin scores_abc =
    Some [(1, (5 # 10)%Q); (2, (7 # 10)%Q); (0, (9 # 10)%Q)] ∧
  ∃ r, convert_result_list_to_dict scores_abc names_abc argmin = Returns r ∧
       result_dict r =
         {[ "B"%string := (0, (5 # 10)%Q); "C"%string := (1, (7 # 10)%Q);
            "A"%string := (2, (9 # 10)%Q) ]}.
Proof.
  split; [|split].
  - intros K ? ? score variable_names scoring_strategy result order
      Horder Hrange Hnames Hvars.
    unfold convert_result_list_to_dict.
    assert (result ≠ []) as Hne by (by intros ->).
    rewrite decide_False by (by destruct result).
    unfold ranking_order in Horder.
    rewrite (ranking_loop_order _ _ _ _ _ _ _ order Horder Hrange).
    eexists. split; [done|]. simpl.
    pose proof (ranking_order_from_perm _ _ _ _ Horder) as Hperm.
    split_and!; [done| | |done].
    + intros k var s Hk.
      assert (var < length variable_names) as Hvar.
      { rewrite <- Hperm in Hrange. eapply Forall_forall in Hrange;
          [|by eapply list_elem_of_lookup_2]. done. }
      destruct (lookup_lt_is_Some_2 variable_names var Hvar) as [name Hname].
      exists name. split; [done|].
      erewrite rank_entries_lookup; [done|done| |done|done].
      by rewrite Hperm.
    + intros name k s Hlook.
      apply rank_entries_lookup_inv in Hlook as [Hlook|(k' & var & Hk & -> & Hvar)].
      * by rewrite lookup_empty in Hlook.
      * by exists var.
  - reflexivity.
  - eexists. split; [vm_compute; reflexivity|]. vm_compute. reflexivity.
Qed.

Lemma convert_result_list_to_dict_ranking_witness :
  ∃ r, convert_result_list_to_dict scores_abc names_abc argmin = Returns r ∧
       [(1, (5 # 10)%Q); (2, (7 # 10)%Q); (0, (9 # 10)%Q)] ≡ₚ scores_abc ∧
       result_dict r !! "C"%string = Some (1, (7 # 10)%Q).
Proof.
  destruct convert_result_list_to_dict_ranking as (Hgen & _ & _).
  destruct (Hgen string _ _ Q names_abc argmin scores_abc
              [(1, (5 # 10)%Q); (2, (7 # 10)%Q); (0, (9 # 10)%Q)])
    as (r & Hr & Hperm & Hrank & _).
  - reflexivity.
  - unfold scores_abc, names_abc. repeat constructor; simpl; lia.
  - unfold names_abc. apply (bool_decide_unpack _); vm_compute; exact I.
  - unfold scores_abc. apply (bool_decide_unpack _); vm_compute; exact I.
  - exists r. split; [exact Hr|]. split; [exact Hperm|].
    destruct (Hrank 1 2 (7 # 10)%Q) as (name & Hname & Hlook); [reflexivity|].
    injection Hname as <-. exact Hlook.
Defined.

(** C8, as the code has it: on a non-empty list the aggregator pops every
    entry it ranks but the last one from the list it is given, one pop for
    each call of the scoring strategy, so that after the call the caller's
    list holds exactly one entry, which is one of its own; a list of two
    entries or more is not left as it was, a list of one entry is. *)
Theorem convert_result_list_to_dict_drains {K} `{Countable K} {score}
    (variable_names : list K) (scoring_strategy : list score → Z)
    (result : list (nat * score)) (r : ranked K score) :
  result ≠ [] →
  convert_result_list_to_dict result variable_names scoring_strategy = Returns r →
  (∃ last, result_left r = [last] ∧ last ∈ result) ∧
  length (strategy_calls r) = length result - 1 ∧
  length (result_left r) = length result - length (strategy_calls r) ∧
  (1 < length result → result_left r ≠ result) ∧
  (length result = 1 → result_left r = result).
Proof.
  intros Hne. unfold convert_result_list_to_dict.
  rewrite decide_False by (by destruct result).
  intros Hloop. apply ranking_loop_drains in Hloop as (last & Hleft & Hin & Hcalls); [|done].
  simpl in Hcalls. assert (0 < length result) by (destruct result; [done|simpl; lia]).
  split_and!.
  - by exists last.
  - done.
  - rewrite Hleft, Hcalls. simpl. lia.
  - intros Hlen Heq. rewrite Hleft in Heq. rewrite <- Heq in Hlen. simpl in Hlen. lia.
  - intros Hlen. rewrite Hleft. destruct result as [|e [|e' rest]]; simpl in Hlen; [done| |lia].
    apply list_elem_of_singleton in Hin. by subst.
Qed.

Lemma convert_result_list_to_dict_drains_witness :
  ∃ r, convert_result_list_to_dict scores_abc names_abc argmin = Returns r ∧
       length (result_left r) = 1 ∧ result_left r ≠ scores_abc.
Proof.
  eexists. split; [vm_compute; reflexivity|].
  destruct (convert_result_list_to_dict_drains names_abc argmin scores_abc
              (Ranked {[ "B"%string := (0, (5 # 10)%Q); "C"%string := (1, (7 # 10)%Q);
                         "A"%string := (2, (9 # 10)%Q) ]}
                 [(0, (9 # 10)%Q)] [[(9 # 10)%Q; (5 # 10)%Q; (7 # 10)%Q];
                                    [(9 # 10)%Q; (7 # 10)%Q]]))
    as ((last & Hleft & _) & _ & _ & Hchanged & _).
  - discriminate.
  - vm_compute. reflexivity.
  - split; [vm_compute; reflexivity|]. apply Hchanged. vm_compute. lia.
Defined.

(** C8, as stated, fails on a list of one entry: the loop body never runs
    and the caller's list is what it was. *)
Lemma convert_result_list_to_dict_keeps_singleton :
  ¬ (∀ (result : list (nat * Q)) (r : ranked string Q),
       result ≠ [] →
       convert_result_list_to_dict result names_abc argmin = Returns r →
       length (result_left r) = 1 ∧ result_left r ≠ result).
Proof.
  intros Hclaim.
  destruct (Hclaim [(0, (9 # 10)%Q)]
              (Ranked {[ "A"%string := (0, (9 # 10)%Q) ]} [(0, (9 # 10)%Q)] []))
    as [_ Hchanged].
  - discriminate.
  - vm_compute. reflexivity.
  - by apply Hchanged.
Qed.

(** ** The order of a dict *)

Section DictFacts.
Context {V : Type}.

Lemma elem_of_key_insert (keys : list nat) key key' :
  key' ∈ key_insert keys key ↔ key' ∈ keys ∨ key' = key.
Proof.
  unfold key_insert. case_decide as Hin.
  - split; [by left|]. by intros [?| ->].
  - rewrite elem_of_app, list_elem_of_singleton. done.
Qed.

Lemma key_insert_NoDup (keys : list nat) key :
  NoDup keys → NoDup (key_insert keys key).
Proof.
  intros Hnodup. unfold key_insert. case_decide as Hin; [done|].
  apply NoDup_app. split_and!; [done| |apply NoDup_singleton].
  by intros x Hx ->%list_elem_of_singleton.
Qed.

Lemma lists_keys_empty : lists_keys (V := V) [] ∅.
Proof.
  split; [constructor|]. intros key. rewrite lookup_empty. split.
  - by intros ?%elem_of_nil.
  - by intros [? ?].
Qed.

Lemma lists_keys_insert (keys : list nat) (d : gmap nat V) key value :
  lists_keys keys d → lists_keys (key_insert keys key) (<[key := value]> d).
Proof.
  intros [Hnodup Hkeys]. split; [by apply key_insert_NoDup|].
  intros key'. rewrite elem_of_key_insert, Hkeys.
  destruct (decide (key = key')) as [->|Hne].
  - rewrite lookup_insert_eq. split; [by eexists|by right].
  - rewrite lookup_insert_ne by done. split; [by intros [?| ->]|by left].
Qed.

(** Filling a dict entry by entry lists its keys by first insertion. *)
Lemma lists_keys_foldl {A} (key_of : A → nat) (value_of : A → V) (items : list A) :
  ∀ keys (d : gmap nat V),
  lists_keys keys d →
  lists_keys (foldl (λ keys item, key_insert keys (key_of item)) keys items)
    (foldl (λ d item, <[key_of item := value_of item]> d) d items).
Proof.
  induction items as [|item items IH]; intros keys d Hkeys; [done|].
  simpl. apply IH. by apply lists_keys_insert.
Qed.

(** The order of a dict is a matter of its keys, not of its values. *)
Lemma lists_keys_dom {W} (keys : list nat) (d : gmap nat V) (d' : gmap nat W) :
  (∀ key, is_Some (d' !! key) ↔ is_Some (d !! key)) →
  lists_keys keys d → lists_keys keys d'.
Proof.
  intros Hdom [Hnodup Hkeys]. split; [done|].
  intros key. by rewrite Hkeys, Hdom.
Qed.

Lemma lists_keys_fmap {W} (f : V → W) (keys : list nat) (d : gmap nat V) :
  lists_keys keys d → lists_keys keys (f <$> d).
Proof.
  apply lists_keys_dom. intros key. rewrite lookup_fmap.
  by rewrite fmap_is_Some.
Qed.

Lemma lists_keys_empty_inv (keys : list nat) :
  lists_keys keys (∅ : gmap nat V) → keys = [].
Proof.
  intros [_ Hkeys]. destruct keys as [|key keys]; [done|].
  destruct (proj1 (Hkeys key)) as [value Hvalue]; [by left|].
  by rewrite lookup_empty in Hvalue.
Qed.

Lemma lists_keys_nil (d : gmap nat V) : lists_keys [] d → d = ∅.
Proof.
  intros [_ Hkeys]. apply map_empty. intros key.
  apply eq_None_not_Some. intros Hsome%Hkeys. by apply elem_of_nil in Hsome.
Qed.

Lemma elem_of_dict_items (keys : list nat) (d : gmap nat V) key value :
  (key, value) ∈ dict_items keys d ↔ key ∈ keys ∧ d !! key = Some value.
Proof.
  unfold dict_items. rewrite list_elem_of_omap. split.
  - intros (key' & Hin & Hentry).
    destruct (d !! key') as [value'|] eqn:Hlook; [|done].
    injection Hentry as -> ->. done.
  - intros [Hin Hlook]. exists key. split; [done|]. by rewrite Hlook.
Qed.

Lemma dict_items_fst (keys : list nat) (d : gmap nat V) :
  (∀ key, key ∈ keys → is_Some (d !! key)) →
  (dict_items keys d).*1 = keys.
Proof.
  induction keys as [|key keys IH]; intros Hkeys; [done|].
  unfold dict_items. csimpl.
  destruct (Hkeys key) as [value Hvalue]; [by left|].
  rewrite Hvalue. csimpl. f_equal. apply IH.
  intros key' Hin. apply Hkeys. by right.
Qed.

(** The items of a dict are its entries, each once, in the order of the
    keys. *)
Lemma dict_items_Permutation (keys : list nat) (d : gmap nat V) :
  lists_keys keys d → dict_items keys d ≡ₚ map_to_list d.
Proof.
  intros [Hnodup Hkeys]. apply NoDup_Permutation.
  - apply (NoDup_fmap_1 fst). rewrite dict_items_fst; [done|].
    intros key Hin. by apply Hkeys.
  - apply NoDup_map_to_list.
  - intros [key value]. rewrite elem_of_dict_items, elem_of_map_to_list.
    split; [by intros [_ ?]|]. intros Hlook. split; [|done].
    apply Hkeys. by eexists.
Qed.

Lemma dict_items_NoDup (keys : list nat) (d : gmap nat V) :
  lists_keys keys d → NoDup (dict_items keys d).*1.
Proof.
  intros [Hnodup Hkeys]. rewrite dict_items_fst; [done|].
  intros key Hin. by apply Hkeys.
Qed.
End DictFacts.

(** ** The scoring engines *)

Section EngineFacts.
Context {dataset score : Type}.
Variable scoring_fn : dataset → dataset → outcome score.

Local Abbreviation pool_step := (pool_step scoring_fn).
Local Abbreviation pool_run := (pool_run scoring_fn).
Local Abbreviation pool_invariant := (pool_invariant scoring_fn).
Local Abbreviation scored_entry := (scored_entry scoring_fn).


Lemma held_insert (ws : list (worker dataset)) w x y :
  ws !! w = Some x →
  option_list (held x) ++ omap held (<[w := y]> ws) ≡ₚ
  option_list (held y) ++ omap held ws.
Proof.
  intros Hw. rewrite insert_take_drop by (by eapply lookup_lt_Some).
  rewrite <- (take_drop_middle ws w x Hw) at 3.
  rewrite !omap_app. simpl.
  destruct (held x) as [t|], (held y) as [t'|]; simpl.
  - rewrite <- !Permutation_middle. apply Permutation_swap.
  - by rewrite <- Permutation_middle.
  - by rewrite <- Permutation_middle.
  - done.
Qed.

Lemma pool_step_invariant items njobs (p p' : pool dataset score) ev :
  pool_step njobs p ev = Some p' →
  pool_invariant items p → pool_invariant items p'.
Proof.
  intros Hstep (scored & Hperm & Hcalls & Hout).
  unfold pending_items in Hperm.
  destruct ev as [|w|w|w]; simpl in Hstep.
  - destruct (to_put p) as [|item rest] eqn:Hput; [done|].
    case_decide; [|done]. injection Hstep as <-.
    exists scored. split_and!; [|done..].
    unfold pending_items. simpl. rewrite <- Hperm. rewrite omap_app.
    destruct item as [t|]; simpl; [|by rewrite app_nil_r].
    rewrite <- !app_assoc. simpl. by rewrite <- !Permutation_middle.
  - destruct (workers p !! w) as [[| | |]|] eqn:Hw; [|done..].
    destruct (in_queue p) as [|in_args queue] eqn:Hqueue; [done|].
    injection Hstep as <-.
    exists scored. split_and!; [|done..].
    unfold pending_items. simpl. rewrite <- Hperm.
    pose proof (held_insert _ _ _
      (match in_args with None => Exited | Some item => Holding item end) Hw) as Hins.
    simpl in Hins. rewrite Hins.
    destruct in_args as [t|]; simpl; [|done].
    by rewrite <- !Permutation_middle.
  - destruct (workers p !! w) as [[|[[var training_data] scoring_data]| |]|] eqn:Hw;
      [done| |done..].
    pose (t := (var, training_data, scoring_data) : triple dataset).
    assert (pending_items p ≡ₚ
            t :: omap id (to_put p) ++ omap id (in_queue p) ++
                 omap held (<[w := Waiting]> (workers p))) as Hwait.
    { unfold pending_items. pose proof (held_insert _ _ _ Waiting Hw) as Hins.
      simpl in Hins. rewrite <- Hins. by rewrite <- !Permutation_middle. }
    assert (pending_items p ≡ₚ
            t :: omap id (to_put p) ++ omap id (in_queue p) ++
                 omap held (<[w := Crashed]> (workers p))) as Hcrash.
    { unfold pending_items. pose proof (held_insert _ _ _ Crashed Hw) as Hins.
      simpl in Hins. rewrite <- Hins. by rewrite <- !Permutation_middle. }
    unfold pending_items in Hwait, Hcrash.
    destruct (scoring_fn training_data scoring_data) as [s|e|] eqn:Hscore; [| |done];
      injection Hstep as <-; exists (scored ++ [t]).
    + split_and!.
      * unfold pending_items. simpl. rewrite <- Hperm, Hwait.
        rewrite (Permutation_app_comm scored). simpl.
        by rewrite <- Permutation_middle.
      * simpl. by rewrite Hcalls, fmap_app.
      * simpl. rewrite Hout, omap_app. simpl. unfold scored_entry at 3. simpl.
        by rewrite Hscore.
    + split_and!.
      * unfold pending_items. simpl. rewrite <- Hperm, Hcrash.
        rewrite (Permutation_app_comm scored). simpl.
        by rewrite <- Permutation_middle.
      * simpl. by rewrite Hcalls, fmap_app.
      * simpl. rewrite Hout, omap_app. simpl. unfold scored_entry at 3. simpl.
        rewrite Hscore. by rewrite app_nil_r.
  - destruct (workers p !! w) as [[| | |]|] eqn:Hw; [done..| |done].
    injection Hstep as <-.
    exists scored. split_and!; [|done..].
    unfold pending_items. simpl. rewrite <- Hperm.
    pose proof (held_insert _ _ _ Waiting Hw) as Hins. simpl in Hins.
    by rewrite Hins.
Qed.

Lemma elem_of_insert_inv {A} (l : list A) i x y :
  x ∈ <[i := y]> l → x = y ∨ x ∈ l.
Proof.
  intros [j Hj]%list_elem_of_lookup.
  apply list_lookup_insert_Some in Hj as [(_ & -> & _)|[_ Hj]]; [by left|].
  right. by eapply list_elem_of_lookup_2.
Qed.

Lemma pool_step_queue_invariant njobs (p p' : pool dataset score) ev :
  pool_step njobs p ev = Some p' →
  queue_invariant p → queue_invariant p'.
Proof.
  intros Hstep (items & m & Hqueue & Hexited).
  destruct ev as [|w|w|w]; simpl in Hstep.
  - destruct (to_put p) as [|item rest] eqn:Hput; [done|].
    case_decide; [|done]. injection Hstep as <-.
    exists items, m. simpl. by rewrite <- app_assoc.
  - destruct (workers p !! w) as [[| | |]|] eqn:Hw; [|done..].
    destruct (in_queue p) as [|in_args queue] eqn:Hin; [done|].
    injection Hstep as <-. simpl in *.
    destruct in_args as [t|].
    + destruct items as [|t' items]; simpl in Hqueue.
      { destruct m; simpl in Hqueue; done. }
      injection Hqueue as -> Hqueue.
      exists items, m. split; [done|].
      intros [?| Hin']%elem_of_insert_inv; [done|]. by apply Hexited in Hin'.
    + destruct items as [|t' items]; simpl in Hqueue; [|done].
      destruct m as [|m]; simpl in Hqueue; [done|].
      injection Hqueue as Hqueue. by exists [], m.
  - destruct (workers p !! w) as [[|[[var training_data] scoring_data]| |]|] eqn:Hw;
      [done| |done..].
    destruct (scoring_fn training_data scoring_data) as [s|e|]; [| |done];
      injection Hstep as <-; exists items, m; simpl; (split; [done|]);
      by intros [?|?]%elem_of_insert_inv; [|apply Hexited].
  - destruct (workers p !! w) as [[| | |]|] eqn:Hw; [done..| |done].
    injection Hstep as <-. exists items, m. simpl. split; [done|].
    by intros [?|?]%elem_of_insert_inv; [|apply Hexited].
Qed.

Lemma pool_step_workers njobs (p p' : pool dataset score) ev :
  pool_step njobs p ev = Some p' →
  length (workers p') = length (workers p).
Proof.
  intros Hstep. destruct ev as [|w|w|w]; simpl in Hstep.
  - destruct (to_put p); [done|]. case_decide; [|done]. by injection Hstep as <-.
  - destruct (workers p !! w) as [[| | |]|]; [|done..].
    destruct (in_queue p); [done|]. injection Hstep as <-. simpl.
    by rewrite length_insert.
  - destruct (workers p !! w) as [[|[[var training_data] scoring_data]| |]|];
      [done| |done..].
    destruct (scoring_fn training_data scoring_data); [| |done];
      injection Hstep as <-; simpl; by rewrite length_insert.
  - destruct (workers p !! w) as [[| | |]|]; [done..| |done].
    injection Hstep as <-. simpl. by rewrite length_insert.
Qed.

(** A triple in the hands of a worker is one of the triples of the pass. *)
Lemma pool_invariant_held items (p : pool dataset score) w t :
  pool_invariant items p → workers p !! w = Some (Holding t) → t ∈ items.
Proof.
  intros (scored & Hperm & _) Hw. rewrite <- Hperm. unfold pending_items.
  rewrite !elem_of_app. left. right. right.
  apply list_elem_of_omap. exists (Holding t). split; [|done].
  by eapply list_elem_of_lookup_2.
Qed.

(** No worker dies while [scoring_fn] returns on every triple of the pass. *)
Lemma pool_step_no_crash items njobs (p p' : pool dataset score) ev :
  (∀ t, t ∈ items → is_Some (scored_entry t)) →
  pool_invariant items p →
  pool_step njobs p ev = Some p' →
  Crashed ∉ workers p → Crashed ∉ workers p'.
Proof.
  intros Htotal Hinv Hstep Hno.
  destruct ev as [|w|w|w]; simpl in Hstep.
  - destruct (to_put p); [done|]. case_decide; [|done]. by injection Hstep as <-.
  - destruct (workers p !! w) as [[| | |]|]; [|done..].
    destruct (in_queue p) as [|[t|] queue]; [done|..]; injection Hstep as <-; simpl;
      by intros [?|?]%elem_of_insert_inv.
  - destruct (workers p !! w) as [[|[[var training_data] scoring_data]| |]|] eqn:Hw;
      [done| |done..].
    pose proof (pool_invariant_held _ _ _ _ Hinv Hw) as Hin.
    apply Htotal in Hin as [entry Hentry].
    cbv [scored_entry] in Hentry. simpl in Hentry.
    destruct (scoring_fn training_data scoring_data); [|done..].
    injection Hstep as <-. simpl. by intros [?|?]%elem_of_insert_inv.
  - destruct (workers p !! w) as [[| | |]|] eqn:Hw; [done..| |done].
    exfalso. apply Hno. by eapply list_elem_of_lookup_2.
Qed.

Lemma pool_run_invariant items njobs schedule : ∀ p p' : pool dataset score,
  pool_run njobs schedule p = Some p' →
  pool_invariant items p → queue_invariant p →
  pool_invariant items p' ∧ queue_invariant p' ∧
  length (workers p') = length (workers p) ∧
  ((∀ t, t ∈ items → is_Some (scored_entry t)) →
   Crashed ∉ workers p → Crashed ∉ workers p').
Proof.
  induction schedule as [|ev schedule IH]; intros p p' Hrun Hinv Hqueue; simpl in Hrun.
  - by injection Hrun as <-.
  - destruct (pool_step njobs p ev) as [p1|] eqn:Hstep; [|done]. simpl in Hrun.
    destruct (IH p1 p' Hrun) as (Hinv' & Hqueue' & Hlen & Hcrash).
    + by eapply pool_step_invariant.
    + by eapply pool_step_queue_invariant.
    + split_and!; [done|done| |].
      * rewrite Hlen. by eapply pool_step_workers.
      * intros Htotal Hno. apply Hcrash; [done|].
        exact (pool_step_no_crash items njobs p p1 ev Htotal Hinv Hstep Hno).
Qed.

Lemma omap_id_Some {A} (l : list A) : omap id (Some <$> l) = l.
Proof. induction l as [|x l IH]; csimpl; by f_equal. Qed.

Lemma omap_replicate_None {A B} (f : A → option B) n x :
  f x = None → omap f (replicate n x) = [].
Proof. intros Hx. induction n as [|n IH]; csimpl; [done|]. by rewrite Hx. Qed.


Lemma pool_init_invariant (items : list (triple dataset)) njobs :
  pool_invariant items (pool_init items njobs) ∧
  queue_invariant (pool_init items njobs : pool dataset score).
Proof.
  split.
  - exists []. split_and!; [|done..]. unfold pending_items, pool_init. simpl.
    rewrite omap_app, omap_id_Some, !omap_replicate_None by done.
    by rewrite !app_nil_r.
  - exists items, njobs. split; [done|]. simpl.
    by intros [? _]%elem_of_replicate.
Qed.



(** *** Draining the result queue *)

Lemma drain_snoc (queue : list (nat * score)) res :
  drain (queue ++ [res]) = <[res.1 := res.2]> (drain queue).
Proof. unfold drain. by rewrite foldl_app. Qed.

Lemma drain_lookup_inv (queue : list (nat * score)) var s :
  drain queue !! var = Some s → (var, s) ∈ queue.
Proof.
  induction queue as [|[var' s'] queue IH] using rev_ind.
  - unfold drain. simpl. by rewrite lookup_empty.
  - rewrite drain_snoc. simpl. destruct (decide (var' = var)) as [->|Hne].
    + rewrite lookup_insert_eq. intros [= ->]. apply elem_of_app. right. by left.
    + rewrite lookup_insert_ne by done. intros Hl. apply elem_of_app. left. by apply IH.
Qed.



(** *** The single-process engine *)

Lemma singlethread_loop_returns (items : list (triple dataset)) :
  ∀ result calls keys,
  (∀ t, t ∈ items → is_Some (scored_entry t)) →
  singlethread_loop scoring_fn items result calls keys =
    Returns (Pass (foldl (λ result res, <[res.1 := res.2]> result) result
                     (omap scored_entry items))
               (calls ++ (triple_data <$> items))
               (foldl (λ keys res, key_insert keys res.1) keys
                  (omap scored_entry items))).
Proof.
  induction items as [|[[var training_data] scoring_data] items IH];
    intros result calls keys Htotal; simpl.
  - by rewrite app_nil_r.
  - destruct (Htotal (var, training_data, scoring_data)) as [entry Hentry]; [by left|].
    cbv [scored_entry] in Hentry |- *. simpl in Hentry |- *.
    destruct (scoring_fn training_data scoring_data) as [s| |]; [|done..]. simpl.
    rewrite IH by (intros t Ht; apply Htotal; by right).
    by rewrite <- app_assoc.
Qed.

Lemma scored_entry_vars (items : list (triple dataset)) :
  (∀ t, t ∈ items → is_Some (scored_entry t)) →
  (omap scored_entry items).*1 = items.*1.*1.
Proof.
  induction items as [|[[var training_data] scoring_data] items IH]; intros Htotal;
    simpl; [done|].
  destruct (Htotal (var, training_data, scoring_data)) as [entry Hentry]; [by left|].
  cbv [scored_entry] in Hentry |- *. simpl in Hentry |- *.
  destruct (scoring_fn training_data scoring_data) as [s| |]; [|done..]. simpl.
  f_equal. apply IH. intros t Ht. apply Htotal. by right.
Qed.

(** Each engine hands back its dict with the order of its keys. *)
Lemma singlethread_loop_keys (items : list (triple dataset)) :
  ∀ result calls keys r,
  lists_keys keys result →
  singlethread_loop scoring_fn items result calls keys = Returns r →
  lists_keys (pass_keys r) (pass_result r).
Proof.
  induction items as [|[[var training_data] scoring_data] items IH];
    intros result calls keys r Hkeys; simpl.
  - by intros [= <-].
  - destruct (scoring_fn training_data scoring_data) as [s| |]; [|done..]. simpl.
    apply IH. by apply lists_keys_insert.
Qed.

Lemma multithread_iteration_keys schedule (items : list (triple dataset)) njobs r :
  _multithread_iteration scoring_fn schedule items njobs = Returns r →
  lists_keys (pass_keys r) (pass_result r).
Proof.
  unfold _multithread_iteration. case_decide as Hjobs; [done|].
  destruct (pool_run _ _ _) as [p|]; [|done].
  destruct (pool_joined p); [|done].
  intros [= <-]. simpl. unfold drain_keys, drain.
  apply (lists_keys_foldl fst snd). apply lists_keys_empty.
Qed.

(** *** A run that completes *)





End EngineFacts.

Lemma multithread_iteration_never_raises {dataset score}
    (scoring_fn : dataset → dataset → outcome score) schedule
    (items : list (triple dataset)) njobs e :
  (1 ≤ njobs)%Z →
  _multithread_iteration scoring_fn schedule items njobs ≠ Raises e.
Proof.
  intros Hjobs. unfold _multithread_iteration. rewrite decide_False by lia.
  destruct (pool_run _ _ _ _) as [p|]; [|done]. by destruct (pool_joined p).
Qed.

(** A dict the pool hands back holds nothing but scores [scoring_fn]
    returned on triples of the pass: a triple it raised on leaves no trace. *)
Lemma multithread_iteration_entries {dataset score}
    (scoring_fn : dataset → dataset → outcome score) schedule
    (items : list (triple dataset)) njobs r var s :
  _multithread_iteration scoring_fn schedule items njobs = Returns r →
  pass_result r !! var = Some s →
  ∃ training_data scoring_data,
    (var, training_data, scoring_data) ∈ items ∧
    scoring_fn training_data scoring_data = Returns s.
Proof.
  unfold _multithread_iteration. case_decide as Hjobs; [done|].
  destruct (pool_run _ _ _ _) as [p|] eqn:Hrun; [|done].
  destruct (pool_joined p) eqn:Hjoined; [|done].
  intros [= <-]. simpl. intros Hin%drain_lookup_inv.
  destruct (pool_init_invariant scoring_fn items (Z.to_nat njobs)) as [Hinv Hqueue].
  destruct (pool_run_invariant scoring_fn items _ _ _ _ Hrun Hinv Hqueue)
    as ((scored & Hperm & Hcalls & Hout) & _).
  rewrite Hout in Hin. apply list_elem_of_omap in Hin as ([[var' tr] sc] & Hscored & Hentry).
  cbv [scored_entry] in Hentry. simpl in Hentry.
  destruct (scoring_fn tr sc) as [s'| |] eqn:Hscore; [|done..].
  injection Hentry as -> ->. exists tr, sc. split; [|done].
  rewrite <- Hperm. apply elem_of_app. by right.
Qed.




(** C5, on the code: a triple on which [scoring_fn] raises. The
    single-process engine hands the exception to its caller; under the pool
    the worker dies of it, the other worker takes its sentinel,
    [pool.join()] returns, and the engine returns a dict without the
    variable of the failed triple. *)
Theorem multithread_iteration_drops_failure :
  brittle_scoring_fn [1] [1] = Raises ScoringError ∧
  _singlethread_iteration brittle_scoring_fn two_triples = Raises ScoringError ∧
  _multithread_iteration brittle_scoring_fn crash_schedule two_triples 2 =
    Returns (Pass {[ 0 := (0 # 10)%Q ]} [([0], [0]); ([1], [1])] [0]).
Proof. split_and!; vm_compute; reflexivity. Qed.

(** ** The orchestrator *)

Section CollectFacts.
Context {score : Type}.

Lemma collected_snoc (passes : list (gmap nat score)) result_i var :
  collected (passes ++ [result_i]) var =
    collected passes var ++ option_list (result_i !! var).
Proof.
  unfold collected. rewrite omap_app. csimpl.
  by destruct (result_i !! var).
Qed.

Lemma first_scores_lookup (items : list (nat * score)) :
  ∀ (result : gmap nat (list score)) var,
  NoDup items.*1 →
  foldl (λ result item, <[item.1 := [item.2]]> result) result items !! var =
    match list_to_map (M := gmap nat score) items !! var with
    | Some s => Some [s]
    | None => result !! var
    end.
Proof.
  induction items as [|[var' s'] items IH]; intros result var Hnodup; [done|].
  apply NoDup_cons in Hnodup as [Hfresh Hnodup]. simpl.
  rewrite IH by done. destruct (decide (var' = var)) as [->|Hne].
  - rewrite lookup_insert_eq.
    rewrite (not_elem_of_list_to_map_1 (M := gmap nat) items var) by done.
    by rewrite lookup_insert_eq.
  - rewrite !lookup_insert_ne by done. done.
Qed.

Lemma append_scores_lookup (items : list (nat * score)) :
  ∀ (result result' : gmap nat (list score)) var,
  NoDup items.*1 →
  append_scores items result = Returns result' →
  result' !! var =
    match list_to_map (M := gmap nat score) items !! var with
    | Some s => (λ scores, scores ++ [s]) <$> result !! var
    | None => result !! var
    end ∧
  (is_Some (list_to_map (M := gmap nat score) items !! var) → is_Some (result !! var)).
Proof.
  induction items as [|[var' s'] items IH]; intros result result' var Hnodup; simpl.
  - intros [= <-]. split; [done|]. by intros [? ?].
  - apply NoDup_cons in Hnodup as [Hfresh Hnodup].
    destruct (result !! var') as [scores|] eqn:Hvar'; [|done].
    intros Happend. destruct (IH _ _ var Hnodup Happend) as [Hlook Hsome].
    rewrite Hlook. destruct (decide (var' = var)) as [->|Hne].
    + rewrite lookup_insert_eq.
      rewrite (not_elem_of_list_to_map_1 (M := gmap nat) items var) by done.
      rewrite lookup_insert_eq, Hvar'. split; [done|by eexists].
    + rewrite !lookup_insert_ne by done.
      rewrite lookup_insert_ne in Hsome by done. done.
Qed.

(** Recording a pass keeps the collection: a pass is added to the scores of
    each of its variables. *)
Lemma record_scores_collects (passes : list (gmap nat score)) result result_i result' :
  collects passes result →
  record_scores result result_i = Returns result' →
  collects (passes ++ [result_i]) result'.
Proof.
  intros Hcoll. unfold record_scores.
  pose proof (NoDup_fst_map_to_list result_i) as Hnodup.
  case_decide as Hsize.
  - intros [= <-]. intros var. rewrite first_scores_lookup by done.
    rewrite list_to_map_to_list, collected_snoc.
    apply map_size_empty_iff in Hsize. subst result.
    specialize (Hcoll var). rewrite lookup_empty in Hcoll.
    destruct (collected passes var); [|done]. simpl.
    by destruct (result_i !! var).
  - intros Happend. intros var.
    destruct (append_scores_lookup _ _ _ var Hnodup Happend) as [Hlook Hsome].
    rewrite list_to_map_to_list in Hlook, Hsome.
    rewrite Hlook, collected_snoc. specialize (Hcoll var).
    destruct (result_i !! var) as [s|] eqn:Hs; simpl.
    + destruct Hsome as [scores Hscores]; [by eexists|].
      rewrite Hscores in Hcoll |- *. simpl.
      destruct (collected passes var) as [|s0 l]; [done|].
      injection Hcoll as ->. done.
    + rewrite app_nil_r. done.
Qed.

(** Recording a pass fills an empty dict with the variables of the pass,
    and leaves a dict that has variables with the variables it has. *)
Lemma record_scores_dom result (result_i : gmap nat score) result' var :
  record_scores result result_i = Returns result' →
  is_Some (result' !! var) ↔
    if decide (size result = 0) then is_Some (result_i !! var)
    else is_Some (result !! var).
Proof.
  unfold record_scores. pose proof (NoDup_fst_map_to_list result_i) as Hnodup.
  case_decide as Hsize.
  - intros [= <-]. rewrite first_scores_lookup by done.
    rewrite list_to_map_to_list.
    apply map_size_empty_iff in Hsize. subst result. rewrite lookup_empty.
    destruct (result_i !! var); split; intros [? ?]; by eauto.
  - intros Happend.
    destruct (append_scores_lookup _ _ _ var Hnodup Happend) as [Hlook Hsome].
    rewrite list_to_map_to_list in Hlook, Hsome. rewrite Hlook.
    destruct (result_i !! var); [|done]. by rewrite fmap_is_Some.
Qed.

Lemma collects_nil : collects (score := score) [] ∅.
Proof. intros var. by rewrite lookup_empty. Qed.

(** A variable with collected scores was scored in some pass. *)
Lemma collects_lookup (passes : list (gmap nat score)) result var scores :
  collects passes result →
  result !! var = Some scores →
  scores = collected passes var ∧
  ∃ result_i s, result_i ∈ passes ∧ result_i !! var = Some s.
Proof.
  intros Hcoll Hvar. specialize (Hcoll var). rewrite Hvar in Hcoll.
  destruct (collected passes var) as [|s l] eqn:Hc; [done|].
  injection Hcoll as ->. split; [done|].
  assert (s ∈ collected passes var) as Hin by (rewrite Hc; by left).
  apply list_elem_of_omap in Hin as (result_i & Hin & Hs). eauto.
Qed.
End CollectFacts.

Section RankMapFacts.
Context {K : Type} `{Countable K} {score : Type}.
Variable variable_names : list K.
Variable scoring_strategy : list score → Z.

(** If the loop of the aggregator returns, the comparator has answered
    within the pool each time and every variable has a name. *)
Lemma ranking_loop_inv fuel :
  ∀ (result : list (nat * score)) rank ranks calls r,
  result ≠ [] →
  ranking_loop variable_names scoring_strategy fuel result rank ranks calls = Returns r →
  is_Some (ranking_order_from scoring_strategy fuel result) ∧
  Forall (λ entry, entry.1 < length variable_names) result.
Proof.
  assert (∀ var s rank ranks calls r fuel,
    ranking_loop variable_names scoring_strategy fuel [(var, s)] rank ranks calls
      = Returns r →
    Forall (λ entry : nat * score, entry.1 < length variable_names) [(var, s)])
    as Hsingle.
  { intros var s rank ranks calls r fuel'. rewrite ranking_loop_last by (simpl; lia).
    change (getitem [(var, s)] 0%Z) with (@Returns (nat * score) (var, s)).
    cbn -[getitem]. rewrite getitem_of_nat.
    destruct (variable_names !! var) as [name|] eqn:Hname; [|done].
    intros _. repeat constructor. simpl. by eapply lookup_lt_Some. }
  induction fuel as [|fuel IH]; intros result rank ranks calls r Hne Hloop.
  - destruct result as [|[var s] [|e' rest]]; [done| |].
    + split; [by eexists|by eapply Hsingle].
    + simpl in Hloop. done.
  - destruct (decide (1 < length result)) as [Hlen|Hlen].
    + rewrite ranking_loop_step in Hloop by done.
      rewrite ranking_order_from_step by done.
      destruct (list_pop result _) as [[[var s] result']| |] eqn:Hpop; [|done..].
      apply list_pop_Returns in Hpop as (best & Hbest & Hentry & ->).
      cbn -[getitem ranking_loop] in Hloop. rewrite getitem_of_nat in Hloop.
      destruct (variable_names !! var) as [name|] eqn:Hname; [|done].
      cbn -[ranking_loop] in Hloop.
      apply IH in Hloop as [[order Horder] Hrange].
      * rewrite Hbest. simpl. rewrite Hentry. simpl. rewrite Horder.
        split; [by eexists|].
        eapply Forall_forall. intros e He.
        rewrite (delete_Permutation result best (var, s) Hentry) in He.
        apply elem_of_cons in He as [->|He].
        -- simpl. by eapply lookup_lt_Some.
        -- by eapply Forall_forall in Hrange.
      * intros Hnil. apply (f_equal length) in Hnil.
        rewrite length_delete in Hnil by eauto. simpl in Hnil. lia.
    + destruct result as [|[var s] [|e' rest]]; simpl in Hlen; [done| |lia].
      split; [by eexists|by eapply Hsingle].
Qed.

(** What [add_ranks_to_dict] returns is the rank map of the ranking order
    of the items of the score map. *)
Lemma add_ranks_to_dict_Returns keys (result : gmap nat score) next_result :
  lists_keys keys result →
  add_ranks_to_dict keys result variable_names scoring_strategy
    = Returns next_result →
  (result = ∅ ∧ next_result = ∅) ∨
  ∃ order, ranking_order scoring_strategy (dict_items keys result) = Some order ∧
           order ≠ [] ∧
           order ≡ₚ map_to_list result ∧
           Forall (λ entry, entry.1 < length variable_names) order ∧
           next_result = rank_entries variable_names 0 order ∅.
Proof.
  intros Hkeys. pose proof (dict_items_Permutation _ _ Hkeys) as Hitems.
  unfold add_ranks_to_dict, convert_result_list_to_dict.
  case_decide as Hlen.
  - simpl. intros [= <-]. left. split; [|done].
    apply map_to_list_empty_iff. apply length_zero_iff_nil in Hlen.
    rewrite Hlen in Hitems. by apply Permutation_nil_l in Hitems.
  - destruct (ranking_loop _ _ _ _ _ _ _) as [r| |] eqn:Hloop; [|done..].
    simpl. intros [= <-]. right.
    assert (dict_items keys result ≠ []) as Hne
      by (intros Hnil; by rewrite Hnil in Hlen).
    destruct (ranking_loop_inv _ _ _ _ _ _ Hne Hloop) as [[order Horder] Hrange].
    rewrite (ranking_loop_order _ _ _ _ _ _ _ order Horder Hrange) in Hloop.
    injection Hloop as <-. exists order.
    pose proof (ranking_order_from_perm _ _ _ _ Horder) as Hperm.
    split_and!; [done| |by rewrite Hperm|by rewrite Hperm|done].
    intros ->. by apply Permutation_nil_l in Hperm.
Qed.

Lemma add_ranks_to_dict_empty keys :
  add_ranks_to_dict keys (∅ : gmap nat score) variable_names scoring_strategy
    = Returns ∅.
Proof.
  unfold add_ranks_to_dict.
  replace (dict_items keys (∅ : gmap nat score)) with ([] : list (nat * score));
    [done|].
  unfold dict_items. induction keys as [|key keys IH]; [done|].
  csimpl. by rewrite lookup_empty.
Qed.

(** *** The key of least rank *)

(** No two names of a rank map of the aggregator hold the same rank. *)
Lemma rank_entries_rank_inj (order : list (nat * score)) name name' rank s s' :
  rank_entries variable_names 0 order ∅ !! name = Some (rank, s) →
  rank_entries variable_names 0 order ∅ !! name' = Some (rank, s') →
  name = name'.
Proof.
  intros [Hlook|(k & var & Hk & -> & Hvar)]%rank_entries_lookup_inv;
    [by rewrite lookup_empty in Hlook|].
  intros [Hlook|(k' & var' & Hk' & Hrank & Hvar')]%rank_entries_lookup_inv;
    [by rewrite lookup_empty in Hlook|].
  simpl in Hrank. subst k'. rewrite Hk in Hk'. injection Hk' as <- <-.
  rewrite Hvar in Hvar'. by injection Hvar'.
Qed.

Lemma least_rank_fold (rest : list (K * (nat * score))) : ∀ first,
  let best := foldl (λ best item, if decide (item.2.1 < best.2.1) then item else best)
                first rest in
  best ∈ first :: rest ∧ ∀ item, item ∈ first :: rest → best.2.1 ≤ item.2.1.
Proof.
  induction rest as [|item rest IH]; intros first; simpl.
  - split; [by left|]. by intros item ->%list_elem_of_singleton.
  - destruct (IH (if decide (item.2.1 < first.2.1) then item else first)) as [Hin Hle].
    split.
    + apply elem_of_cons in Hin as [->|Hin]; [|by do 2 right].
      case_decide; [right; by left|by left].
    + intros item' Hin'.
      assert (∀ x, x = first ∨ x = item →
                (if decide (item.2.1 < first.2.1) then item else first).2.1 ≤ x.2.1)
        as Hmin by (intros x [->| ->]; case_decide; lia).
      apply elem_of_cons in Hin' as [->|Hin'].
      * etrans; [apply Hle; by left|]. apply Hmin. by left.
      * apply elem_of_cons in Hin' as [->|Hin'].
        -- etrans; [apply Hle; by left|]. apply Hmin. by right.
        -- apply Hle. by right.
Qed.

Lemma min_rank_key_Returns (next_result : gmap K (nat * score)) best_var :
  min_rank_key next_result = Returns best_var →
  ∃ rank s, next_result !! best_var = Some (rank, s) ∧
            ∀ name rank' s', next_result !! name = Some (rank', s') → rank ≤ rank'.
Proof.
  unfold min_rank_key.
  destruct (map_to_list next_result) as [|first rest] eqn:Hlist; [done|].
  intros [= <-]. destruct (least_rank_fold rest first) as [Hin Hle].
  set (best := foldl _ first rest) in *.
  destruct best as [name [rank s]] eqn:Hbest. exists rank, s. simpl. split.
  - apply elem_of_map_to_list. by rewrite Hlist.
  - intros name' rank' s' Hlook. apply elem_of_map_to_list in Hlook.
    rewrite Hlist in Hlook. by apply Hle in Hlook.
Qed.

Lemma min_rank_key_empty : min_rank_key (∅ : gmap K (nat * score)) = Raises ValueError.
Proof. unfold min_rank_key. by rewrite map_to_list_empty. Qed.

Lemma first_index_Returns best_var best_index :
  first_index variable_names best_var = Returns best_index →
  variable_names !! best_index = Some best_var.
Proof.
  unfold first_index.
  destruct (list_find _ _) as [[index name]|] eqn:Hfind; [|done].
  intros [= <-]. apply list_find_Some in Hfind as (Hlook & -> & _). done.
Qed.

(** With pairwise distinct names, the rank map of a non-empty order has a
    variable of rank 0 and [min] finds it. *)
Lemma min_rank_key_rank_0 (order : list (nat * score)) best_var :
  NoDup variable_names →
  NoDup order.*1 →
  Forall (λ entry, entry.1 < length variable_names) order →
  order ≠ [] →
  min_rank_key (rank_entries variable_names 0 order ∅) = Returns best_var →
  ∃ var s, order !! 0 = Some (var, s) ∧ variable_names !! var = Some best_var ∧
           rank_entries variable_names 0 order ∅ !! best_var = Some (0, s).
Proof.
  intros Hnames Hvars Hrange Hne Hmin.
  assert (∃ var s, order !! 0 = Some (var, s)) as (var & s & Hfirst).
  { destruct order as [|[var s] rest]; [done|]. by exists var, s. }
  assert (var < length variable_names) as Hvar.
  { eapply Forall_forall in Hrange; [|by eapply list_elem_of_lookup_2]. done. }
  destruct (lookup_lt_is_Some_2 variable_names var Hvar) as [name Hname].
  pose proof (rank_entries_lookup variable_names order Hnames 0 ∅ 0 var s name
                Hvars Hfirst Hname) as Hzero.
  apply min_rank_key_Returns in Hmin as (rank & s' & Hbest & Hle).
  apply Hle in Hzero as Hrank. simpl in Hrank.
  assert (rank = 0) as -> by lia.
  apply rank_entries_lookup_inv in Hbest as Hinv.
  destruct Hinv as [Hinv|(k & var' & Hk & Hk0 & Hname')];
    [by rewrite lookup_empty in Hinv|].
  assert (k = 0) as -> by lia. rewrite Hfirst in Hk. injection Hk as <- <-.
  exists var, s. done.
Qed.
End RankMapFacts.

Section RoundFacts.
Context {K : Type} `{Countable K} {data dataset score : Type}.
Variable np_average : list score → score.
Variables training_data scoring_data : data.
Variable scoring_fn : dataset → dataset → outcome score.
Variable scoring_strategy : list score → Z.
Variable selection_strategy : data → data → nat → list nat → nat → Q → strategy dataset.
Variable variable_names : list K.
Variable nbootstrap : nat.
Variable subsample : Q.
Variable njobs : Z.
Variable schedules : nat → nat → list event.

Local Abbreviation pass_of :=
  (scoring_pass training_data scoring_data scoring_fn selection_strategy
     variable_names subsample njobs schedules).
Local Abbreviation candidates important_vars i :=
  (selection_iterator
     (selection_strategy training_data scoring_data (length variable_names)
        important_vars i subsample)).
Local Abbreviation bootstrap :=
  (bootstrap_loop training_data scoring_data scoring_fn selection_strategy
     variable_names subsample njobs schedules).
Local Abbreviation round_of :=
  (selection_round np_average training_data scoring_data scoring_fn
     scoring_strategy selection_strategy variable_names nbootstrap subsample
     njobs schedules).
Local Abbreviation rounds_of :=
  (selection_rounds np_average training_data scoring_data scoring_fn
     scoring_strategy selection_strategy variable_names nbootstrap subsample
     njobs schedules).

Lemma singlethread_loop_vars (items : list (triple dataset)) :
  ∀ result calls keys r var,
  singlethread_loop scoring_fn items result calls keys = Returns r →
  is_Some (pass_result r !! var) →
  is_Some (result !! var) ∨ var ∈ items.*1.*1.
Proof.
  induction items as [|[[var' tr] sc] items IH]; intros result calls keys r var; simpl.
  - intros [= <-]. by left.
  - destruct (scoring_fn tr sc) as [s| |]; [|done..]. simpl.
    intros Hloop Hsome. destruct (IH _ _ _ _ _ Hloop Hsome) as [Hin|Hin].
    + destruct (decide (var' = var)) as [->|Hne]; [right; by left|].
      rewrite lookup_insert_ne in Hin by done. by left.
    + right. by right.
Qed.

(** An engine scores candidates of the strategy and nothing else. *)
Lemma scoring_pass_vars round important_vars i r var :
  pass_of round important_vars i = Returns r →
  is_Some (pass_result r !! var) →
  var ∈ (candidates important_vars i).*1.*1.
Proof.
  unfold scoring_pass. case_decide as Hjobs.
  - intros Hsingle Hsome.
    destruct (singlethread_loop_vars _ _ _ _ _ _ Hsingle Hsome) as [Hin|Hin]; [|done].
    rewrite lookup_empty in Hin. by destruct Hin.
  - intros Hmulti [s Hs].
    destruct (multithread_iteration_entries _ _ _ _ _ _ _ Hmulti Hs)
      as (tr & sc & Hin & _).
    apply list_elem_of_fmap. exists (var, tr). split; [done|].
    apply list_elem_of_fmap. by exists (var, tr, sc).
Qed.

(** The dict of a pass comes with the order of its keys. *)
Lemma scoring_pass_keys round important_vars i r :
  pass_of round important_vars i = Returns r →
  lists_keys (pass_keys r) (pass_result r).
Proof.
  unfold scoring_pass. case_decide as Hjobs.
  - intros Hsingle. eapply singlethread_loop_keys; [|exact Hsingle].
    apply lists_keys_empty.
  - apply multithread_iteration_keys.
Qed.

(** The bootstrap loop collects the passes it runs, and keeps the order of
    the keys of [result]. *)
Lemma bootstrap_loop_collects round important_vars indices :
  ∀ passes0 result keys result' keys',
  collects passes0 result →
  lists_keys keys result →
  bootstrap round important_vars indices result keys = Returns (result', keys') →
  ∃ passes,
    Forall2 (λ i result_i, ∃ r, pass_of round important_vars i = Returns r ∧
                                pass_result r = result_i) indices passes ∧
    collects (passes0 ++ passes) result' ∧
    lists_keys keys' result'.
Proof.
  induction indices as [|i indices IH];
    intros passes0 result keys result' keys' Hcoll Hkeys; simpl.
  - intros [= <- <-]. exists []. split_and!; [constructor|by rewrite app_nil_r|done].
  - destruct (pass_of round important_vars i) as [r| |] eqn:Hpass; [|done..]. simpl.
    destruct (record_scores result (pass_result r)) as [result1| |] eqn:Hrec; [|done..].
    simpl. intros Hloop.
    pose proof (record_scores_collects _ _ _ _ Hcoll Hrec) as Hcoll1.
    assert (lists_keys (if decide (size result = 0) then pass_keys r else keys)
              result1) as Hkeys1.
    { pose proof (scoring_pass_keys _ _ _ _ Hpass) as Hpass_keys.
      case_decide as Hsize.
      - eapply lists_keys_dom; [|exact Hpass_keys]. intros key.
        rewrite (record_scores_dom _ _ _ key Hrec). by rewrite decide_True.
      - eapply lists_keys_dom; [|exact Hkeys]. intros key.
        rewrite (record_scores_dom _ _ _ key Hrec). by rewrite decide_False. }
    destruct (IH _ _ _ _ _ Hcoll1 Hkeys1 Hloop) as (passes & Hpasses & Hcoll' & Hkeys').
    exists (pass_result r :: passes). split_and!.
    + constructor; [by exists r|done].
    + by rewrite <- app_assoc in Hcoll'.
    + done.
Qed.

(** Once [result] has variables, its order stays. *)
Lemma bootstrap_loop_keeps_keys round important_vars indices :
  ∀ result keys result' keys',
  size result ≠ 0 →
  bootstrap round important_vars indices result keys = Returns (result', keys') →
  keys' = keys.
Proof.
  induction indices as [|i indices IH]; intros result keys result' keys' Hsize; simpl.
  - by intros [= _ <-].
  - destruct (pass_of round important_vars i) as [r| |] eqn:Hpass; [|done..]. simpl.
    destruct (record_scores result (pass_result r)) as [result1| |] eqn:Hrec; [|done..].
    simpl. rewrite decide_False by done. apply IH.
    apply map_size_ne_0_lookup_1 in Hsize as [key Hkey].
    apply (map_size_ne_0_lookup_2 _ key).
    rewrite (record_scores_dom _ _ _ key Hrec). by rewrite decide_False by
      (by apply (map_size_ne_0_lookup_2 _ key)).
Qed.

(** The order of [result] is the order of the dict of the first pass, when
    that pass brought any variable. *)
Lemma bootstrap_loop_first_keys round important_vars i indices r result' keys' :
  pass_of round important_vars i = Returns r →
  pass_result r ≠ ∅ →
  bootstrap round important_vars (i :: indices) ∅ [] = Returns (result', keys') →
  keys' = pass_keys r.
Proof.
  intros Hpass Hne. simpl. rewrite Hpass. simpl.
  destruct (record_scores ∅ (pass_result r)) as [result1| |] eqn:Hrec; [|done..].
  simpl. rewrite decide_True by apply map_size_empty.
  apply bootstrap_loop_keeps_keys.
  apply map_size_non_empty_iff in Hne.
  apply map_size_ne_0_lookup_1 in Hne as [key Hkey].
  apply (map_size_ne_0_lookup_2 _ key).
  rewrite (record_scores_dom _ _ _ key Hrec).
  by rewrite decide_True by apply map_size_empty.
Qed.

(** What a round that returns has done. *)
Lemma selection_round_Returns round important_vars result_obj state' :
  NoDup variable_names →
  round_of round (important_vars, result_obj) = Returns state' →
  ∃ passes keys avg_result next_result best_var best_index s,
    Forall2 (λ i result_i, ∃ r, pass_of round important_vars i = Returns r ∧
                                pass_result r = result_i)
      (seq 0 nbootstrap) passes ∧
    (∀ var, avg_result !! var =
              match collected passes var with
              | [] => None
              | scores => Some (np_average scores)
              end) ∧
    lists_keys keys avg_result ∧
    (∀ r, pass_of round important_vars 0 = Returns r → pass_result r ≠ ∅ →
          keys = pass_keys r) ∧
    add_ranks_to_dict keys avg_result variable_names scoring_strategy
      = Returns next_result ∧
    next_result !! best_var = Some (0, s) ∧
    variable_names !! best_index = Some best_var ∧
    avg_result !! best_index = Some s ∧
    collected passes best_index ≠ [] ∧
    state' = (important_vars ++ [best_index],
              add_new_results result_obj next_result best_var).
Proof.
  intros Hnames. unfold selection_round.
  destruct (bootstrap round important_vars (seq 0 nbootstrap) ∅ [])
    as [[result keys]| |] eqn:Hboot; [|done..]. simpl.
  destruct (bootstrap_loop_collects _ _ _ [] _ _ _ _ collects_nil lists_keys_empty Hboot)
    as (passes & Hpasses & Hcoll & Hkeys). simpl in Hcoll.
  destruct (add_ranks_to_dict _ _ _ _) as [next_result| |] eqn:Hranks; [|done..]. simpl.
  destruct (min_rank_key next_result) as [best_var| |] eqn:Hmin; [|done..]. simpl.
  destruct (first_index variable_names best_var) as [best_index| |] eqn:Hindex;
    [|done..]. simpl.
  intros [= <-].
  assert (∀ var, (np_average <$> result) !! var =
                   match collected passes var with
                   | [] => None
                   | scores => Some (np_average scores)
                   end) as Havg.
  { intros var. rewrite lookup_fmap, (Hcoll var).
    by destruct (collected passes var). }
  apply (lists_keys_fmap np_average) in Hkeys.
  apply add_ranks_to_dict_Returns in Hranks as Hshape; [|done].
  destruct Hshape as [[_ ->]|(order & Horder & Hne & Hperm & Hrange & ->)].
  { by rewrite min_rank_key_empty in Hmin. }
  assert (NoDup order.*1) as Hvars.
  { rewrite Hperm. apply NoDup_fst_map_to_list. }
  destruct (min_rank_key_rank_0 _ _ _ Hnames Hvars Hrange Hne Hmin)
    as (var & s & Hfirst & Hname & Hzero).
  apply first_index_Returns in Hindex.
  assert (best_index = var) as ->
    by exact (NoDup_lookup variable_names best_index var best_var Hnames Hindex Hname).
  exists passes, keys, (np_average <$> result),
    (rank_entries variable_names 0 order ∅), best_var, var, s.
  assert ((np_average <$> result) !! var = Some s) as Hscore.
  { apply elem_of_map_to_list. rewrite <- Hperm. by eapply list_elem_of_lookup_2. }
  split_and!; [done|done|done| |done|done|done|done| |done].
  - intros r Hpass Hne0.
    destruct nbootstrap as [|n]; [|by eapply bootstrap_loop_first_keys].
    simpl in Hboot. injection Hboot as <- <-.
    rewrite fmap_empty, map_to_list_empty in Hperm.
    by apply Permutation_nil_r in Hperm.
  - rewrite Havg in Hscore. by destruct (collected passes var).
Qed.

End RoundFacts.


Section RunFacts.
Context {K : Type} `{Countable K} {data dataset score : Type}.
Variable np_average : list score → score.
Variables training_data scoring_data : data.
Variable scoring_fn : dataset → dataset → outcome score.
Variable scoring_strategy : list score → Z.
Variable selection_strategy : data → data → nat → list nat → nat → Q → strategy dataset.
Variable variable_names : list K.
Variable nbootstrap : nat.
Variable subsample : Q.
Variable njobs : Z.
Variable schedules : nat → nat → list event.

Local Abbreviation pass_of :=
  (scoring_pass training_data scoring_data scoring_fn selection_strategy
     variable_names subsample njobs schedules).
Local Abbreviation candidates important_vars i :=
  (selection_iterator
     (selection_strategy training_data scoring_data (length variable_names)
        important_vars i subsample)).
Local Abbreviation bootstrap :=
  (bootstrap_loop training_data scoring_data scoring_fn selection_strategy
     variable_names subsample njobs schedules).
Local Abbreviation round_of :=
  (selection_round np_average training_data scoring_data scoring_fn
     scoring_strategy selection_strategy variable_names nbootstrap subsample
     njobs schedules).
Local Abbreviation rounds_of :=
  (selection_rounds np_average training_data scoring_data scoring_fn
     scoring_strategy selection_strategy variable_names nbootstrap subsample
     njobs schedules).

Lemma selection_rounds_app rounds1 rounds2 state :
  rounds_of (rounds1 ++ rounds2) state =
    rounds_of rounds1 state ≫= rounds_of rounds2.
Proof.
  revert state. induction rounds1 as [|round rounds1 IH]; intros state; [done|].
  simpl. destruct (round_of round state) as [state1| |]; simpl; [apply IH|done..].
Qed.

(** A round that returns appends one index to the history and one entry to
    the cumulative result; when the strategy offers no variable of the
    history, the index is new to the history. *)
Lemma selection_round_appends round state state' :
  NoDup variable_names →
  round_of round state = Returns state' →
  ∃ best_index,
    state'.1 = state.1 ++ [best_index] ∧
    length (round_results state'.2) = S (length (round_results state.2)) ∧
    ((∀ i var, var ∈ (candidates state.1 i).*1.*1 → var ∉ state.1) →
     best_index ∉ state.1).
Proof.
  intros Hnames Hround. destruct state as [important_vars result_obj].
  destruct (selection_round_Returns _ _ _ _ _ _ _ _ _ _ _ _ _ _ _ Hnames Hround)
    as (passes & keys & avg_result & next_result & best_var & best_index & s &
        Hpasses & _ & _ & _ & _ & _ & _ & _ & Hscored & ->).
  exists best_index. simpl. split_and!; [done|by rewrite length_app; simpl; lia|].
  intros Hcontract.
  destruct (collected passes best_index) as [|s0 l] eqn:Hcoll; [done|].
  assert (s0 ∈ collected passes best_index) as Hin by (rewrite Hcoll; by left).
  apply list_elem_of_omap in Hin as (result_i & Hin & Hs).
  apply list_elem_of_lookup in Hin as [j Hj].
  destruct (Forall2_lookup_r _ _ _ _ _ Hpasses Hj) as (i & _ & r & Hpass & <-).
  apply (Hcontract i). eapply scoring_pass_vars; [done|by eexists].
Qed.

Lemma selection_rounds_history rounds : ∀ state state',
  NoDup variable_names →
  rounds_of rounds state = Returns state' →
  ∃ added,
    state'.1 = state.1 ++ added ∧
    length added = length rounds ∧
    length (round_results state'.2) = length (round_results state.2) + length rounds ∧
    ((∀ important_vars i var,
        var ∈ (candidates important_vars i).*1.*1 → var ∉ important_vars) →
     NoDup state.1 → NoDup state'.1).
Proof.
  induction rounds as [|round rounds IH]; intros state state' Hnames; simpl.
  - intros [= <-]. exists []. rewrite app_nil_r. split_and!; [done|done|lia|done].
  - destruct (round_of round state) as [state1| |] eqn:Hround; [|done..]. simpl.
    intros Hrounds.
    destruct (selection_round_appends _ _ _ Hnames Hround)
      as (best_index & Hhist1 & Hlen1 & Hfresh).
    destruct (IH _ _ Hnames Hrounds) as (added & Hhist & Hlen & Hres & Hnodup).
    exists (best_index :: added). split_and!.
    + rewrite Hhist, Hhist1. by rewrite <- app_assoc.
    + simpl. by rewrite Hlen.
    + rewrite Hres, Hlen1. lia.
    + intros Hcontract Hstate. apply Hnodup; [done|].
      rewrite Hhist1. apply NoDup_app. split_and!; [done| |apply NoDup_singleton].
      intros var Hvar ->%list_elem_of_singleton.
      by apply (Hfresh (Hcontract state.1)).
Qed.

(** *** A round without candidates *)

Lemma record_scores_empty :
  record_scores (∅ : gmap nat (list score)) ∅ = Returns ∅.
Proof.
  unfold record_scores. rewrite decide_True by apply map_size_empty.
  by rewrite map_to_list_empty.
Qed.

Lemma scoring_pass_empty round important_vars i :
  candidates important_vars i = [] →
  (∃ calls, pass_of round important_vars i = Returns (Pass ∅ calls [])) ∨
  (njobs ≠ 1%Z ∧
   (pass_of round important_vars i = Raises ValueError ∨
    pass_of round important_vars i = NoReturn)).
Proof.
  intros Hempty. unfold scoring_pass. rewrite Hempty. case_decide as Hjobs.
  - left. by exists [].
  - destruct (_multithread_iteration scoring_fn (schedules round i) [] njobs)
      as [[result calls keys]|e|] eqn:Hmulti.
    + left. exists calls.
      assert (result = ∅) as ->.
      { apply map_eq. intros var.
        rewrite lookup_empty. apply eq_None_not_Some. intros [s Hs].
        destruct (multithread_iteration_entries _ _ _ _ _ _ _ Hmulti Hs)
          as (tr & sc & Hin & _).
        by apply elem_of_nil in Hin. }
      apply multithread_iteration_keys in Hmulti. simpl in Hmulti.
      by rewrite (lists_keys_empty_inv _ Hmulti).
    + right. split; [done|]. left. f_equal.
      unfold _multithread_iteration in Hmulti. case_decide; [congruence|].
      destruct (pool_run _ _ _ _) as [p|]; [|done]. by destruct (pool_joined p).
    + right. split; [done|]. by right.
Qed.

Lemma bootstrap_loop_empty round important_vars indices :
  (∀ i, i ∈ indices → candidates important_vars i = []) →
  bootstrap round important_vars indices ∅ [] = Returns (∅, []) ∨
  (njobs ≠ 1%Z ∧
   (bootstrap round important_vars indices ∅ [] = Raises ValueError ∨
    bootstrap round important_vars indices ∅ [] = NoReturn)).
Proof.
  induction indices as [|i indices IH]; intros Hempty; simpl; [by left|].
  destruct (scoring_pass_empty round important_vars i) as [[calls ->]|[Hjobs [-> | ->]]].
  - apply Hempty. by left.
  - simpl. rewrite record_scores_empty. simpl.
    rewrite decide_True by apply map_size_empty. apply IH.
    intros j Hj. apply Hempty. by right.
  - right. split; [done|]. by left.
  - right. split; [done|]. by right.
Qed.

(** Without candidates in any pass the rank map is empty and [min] raises. *)
Lemma selection_round_empty round important_vars result_obj :
  (∀ i, i < nbootstrap → candidates important_vars i = []) →
  round_of round (important_vars, result_obj) = Raises ValueError ∨
  (njobs ≠ 1%Z ∧ round_of round (important_vars, result_obj) = NoReturn).
Proof.
  intros Hempty. unfold selection_round.
  destruct (bootstrap_loop_empty round important_vars (seq 0 nbootstrap))
    as [-> |[Hjobs [-> | ->]]].
  - intros i Hi%elem_of_seq. apply Hempty. lia.
  - simpl. rewrite min_rank_key_empty. by left.
  - by left.
  - right. done.
Qed.

Lemma selection_rounds_empty k n init state :
  k < n →
  rounds_of (seq 0 k) init = Returns state →
  (∀ i, i < nbootstrap → candidates state.1 i = []) →
  rounds_of (seq 0 n) init = Raises ValueError ∨
  (njobs ≠ 1%Z ∧ rounds_of (seq 0 n) init = NoReturn).
Proof.
  intros Hlt Hk Hempty.
  replace n with (k + S (n - S k)) by lia.
  rewrite seq_app, selection_rounds_app, Hk. simpl.
  destruct state as [important_vars result_obj].
  destruct (selection_round_empty k important_vars result_obj Hempty)
    as [-> |[Hjobs ->]]; [by left|by right].
Qed.
End RunFacts.


(** The forward strategy offers no variable of the history. *)
Lemma forward_strategy_fresh training_data scoring_data num_vars important_vars
    i subsample var :
  var ∈ (selection_iterator
           (forward_strategy training_data scoring_data num_vars important_vars
              i subsample)).*1.*1 →
  var ∉ important_vars.
Proof.
  simpl. rewrite <- !list_fmap_compose.
  intros (var' & -> & Hin)%list_elem_of_fmap. simpl.
  by apply list_elem_of_filter in Hin as [? _].
Qed.

(** C6: in a run of [n] rounds that returns, after each [k ≤ n] completed
    rounds the history has exactly [k] entries, it is a prefix of every
    later history (entries are only appended), and, the names of the
    variables being pairwise distinct and the strategy offering no variable
    of the history, it has no duplicates; the cumulative result has [k]
    round entries. *)
Theorem important_vars_history {K} `{Countable K} {data dataset score : Type}
    (np_average : list score → score) (cpu_count : nat) (len_inputs : data → nat)
    (training_data scoring_data : data)
    (scoring_fn : dataset → dataset → outcome score)
    (scoring_strategy : list score → Z)
    (selection_strategy : data → data → nat → list nat → nat → Q → strategy dataset)
    (variable_names : list K) (method : string) (nbootstrap : nat) (subsample : Q)
    (njobs : Z) (schedules : nat → nat → list event) (k n : nat)
    (state_n : list nat * ImportanceResult K score) :
  k ≤ n →
  NoDup variable_names →
  (∀ important_vars i subsample' var,
     var ∈ (selection_iterator
              (selection_strategy training_data scoring_data (length variable_names)
                 important_vars i subsample')).*1.*1 →
     var ∉ important_vars) →
  sequential_selection_state np_average cpu_count len_inputs training_data
    scoring_data scoring_fn scoring_strategy selection_strategy variable_names
    (Some n) method nbootstrap subsample njobs schedules = Returns state_n →
  ∃ state_k,
    sequential_selection_state np_average cpu_count len_inputs training_data
      scoring_data scoring_fn scoring_strategy selection_strategy variable_names
      (Some k) method nbootstrap subsample njobs schedules = Returns state_k ∧
    length state_k.1 = k ∧
    state_k.1 `prefix_of` state_n.1 ∧
    NoDup state_k.1 ∧
    length (round_results state_k.2) = k.
Proof.
  intros Hle Hnames Hcontract. unfold sequential_selection_state. simpl.
  destruct (generate_datasets_nil _) as [training scoring].
  destruct (scoring_fn training scoring) as [original| |]; [|done..]. simpl.
  replace n with (k + (n - k)) by lia.
  rewrite seq_app, selection_rounds_app.
  destruct (selection_rounds _ _ _ _ _ _ _ _ _ _ _ (seq 0 k) _)
    as [state_k| |] eqn:Hk; [|done..]. simpl.
  intros Hn. exists state_k. split; [done|].
  destruct (selection_rounds_history _ _ _ _ _ _ _ _ _ _ _ _ _ _ Hnames Hk)
    as (added & Hhist & Hlen & Hres & Hnodup).
  destruct (selection_rounds_history _ _ _ _ _ _ _ _ _ _ _ _ _ _ Hnames Hn)
    as (later & Hhist' & _).
  simpl in Hhist, Hres. rewrite length_seq in Hlen, Hres.
  split_and!.
  - by rewrite Hhist.
  - rewrite Hhist'. by exists later.
  - apply Hnodup; [|apply NoDup_nil_2]. intros important_vars i var. apply Hcontract.
  - done.
Qed.

Lemma important_vars_history_witness :
  ∃ state_2 state_3,
    toy_selection (Some 3) = Returns state_3 ∧
    toy_selection (Some 2) = Returns state_2 ∧
    length state_2.1 = 2 ∧ state_2.1 `prefix_of` state_3.1 ∧ NoDup state_2.1.
Proof.
  destruct (toy_selection (Some 3)) as [state_3| |] eqn:Hrun;
    [|vm_compute in Hrun; discriminate..].
  assert (NoDup names_abc) as Hnames
    by (apply (bool_decide_unpack _); vm_compute; exact I).
  destruct (important_vars_history Q_average 8 (λ _ : unit, 100) tt tt
              toy_scoring_fn argmin forward_strategy names_abc "forward" 1 1%Q 1%Z
              (λ _ _, []) 2 3 state_3)
    as (state_2 & Hrun2 & Hlen & Hprefix & Hnodup & _).
  - lia.
  - exact Hnames.
  - intros important_vars i subsample' var. apply forward_strategy_fresh.
  - exact Hrun.
  - exists state_2, state_3. repeat split;
      [exact Hrun2|exact Hlen|exact Hprefix|exact Hnodup].
Defined.

(** C4, as the code has it: when the run reaches a round in which the
    strategy offers no candidate in any pass, the rank map of the round is
    empty and [min] over its keys raises a [ValueError]; the run does not
    return a result. Under a pool whose schedule does not complete, the run
    does not return at all. *)
Theorem exhausted_candidates_raise_ValueError {K} `{Countable K}
    {data dataset score : Type}
    (np_average : list score → score) (cpu_count : nat) (len_inputs : data → nat)
    (training_data scoring_data : data)
    (scoring_fn : dataset → dataset → outcome score)
    (scoring_strategy : list score → Z)
    (selection_strategy : data → data → nat → list nat → nat → Q → strategy dataset)
    (variable_names : list K) (method : string) (nbootstrap : nat) (subsample : Q)
    (njobs : Z) (schedules : nat → nat → list event) (k n : nat)
    (state_k : list nat * ImportanceResult K score) :
  k < n →
  sequential_selection_state np_average cpu_count len_inputs training_data
    scoring_data scoring_fn scoring_strategy selection_strategy variable_names
    (Some k) method nbootstrap subsample njobs schedules = Returns state_k →
  (∀ i, i < nbootstrap →
     selection_iterator
       (selection_strategy training_data scoring_data (length variable_names)
          state_k.1 i (resolve_subsample len_inputs training_data subsample)) = []) →
  sequential_selection np_average cpu_count len_inputs training_data
    scoring_data scoring_fn scoring_strategy selection_strategy variable_names
    (Some n) method nbootstrap subsample njobs schedules = Raises ValueError ∨
  (resolve_njobs cpu_count njobs ≠ 1%Z ∧
   sequential_selection np_average cpu_count len_inputs training_data
     scoring_data scoring_fn scoring_strategy selection_strategy variable_names
     (Some n) method nbootstrap subsample njobs schedules = NoReturn).
Proof.
  intros Hlt. unfold sequential_selection, sequential_selection_state. simpl.
  destruct (generate_datasets_nil _) as [training scoring].
  destruct (scoring_fn training scoring) as [original| |]; [|done..]. simpl.
  intros Hk Hempty.
  destruct (selection_rounds_empty _ _ _ _ _ _ _ _ _ _ _ _ _ _ _ Hlt Hk Hempty)
    as [-> |[Hjobs ->]]; [by left|by right].
Qed.

Lemma exhausted_candidates_raise_ValueError_witness :
  toy_run (Some 4) = Raises ValueError ∨
  (resolve_njobs 8 1 ≠ 1%Z ∧ toy_run (Some 4) = NoReturn).
Proof.
  destruct (toy_selection (Some 3)) as [state_3| |] eqn:Hrun;
    [|vm_compute in Hrun; discriminate..].
  apply (exhausted_candidates_raise_ValueError Q_average 8 (λ _ : unit, 100) tt tt
           toy_scoring_fn argmin forward_strategy names_abc "forward" 1 1%Q 1%Z
           (λ _ _, []) 3 4 state_3).
  - lia.
  - exact Hrun.
  - intros i Hi. vm_compute in Hrun. injection Hrun as <-. reflexivity.
Defined.

(** C4, as stated, fails: with three variables and four rounds the
    candidates are exhausted in the fourth round, and what the caller gets
    is the [ValueError] of [min], not an error of exhausted candidates. *)
Lemma toy_run_exhausted_not_reported :
  selection_iterator (forward_strategy tt tt 3 [0; 1; 2] 0 100%Q) = [] ∧
  toy_run (Some 4) = Raises ValueError ∧
  toy_run (Some 4) ≠ Raises ExhaustedCandidates.
Proof. split_and!; [reflexivity|vm_compute; reflexivity|vm_compute; discriminate]. Qed.

(** * Further properties of the code *)

(** ** The ranking aggregator: outcomes *)

Section AggregatorOutcome.
Context {K : Type} `{Countable K} {score : Type}.
Variable variable_names : list K.
Variable scoring_strategy : list score → Z.

Lemma list_pop_outcome {A} (l : list A) i :
  (∃ x k, py_index (length l) i = Some k ∧ l !! k = Some x ∧
          list_pop l i = Returns (x, delete k l)) ∨
  (py_index (length l) i = None ∧
   (list_pop l i = Raises IndexError ∨
    (¬ (- ssize_max - 1 ≤ i ≤ ssize_max)%Z ∧ list_pop l i = Raises OverflowError))).
Proof.
  unfold list_pop. destruct (py_index (length l) i) as [k|] eqn:Hk.
  - left. pose proof (py_index_lt _ _ _ Hk) as Hlt.
    destruct (lookup_lt_is_Some_2 l k Hlt) as [x Hx]. rewrite Hx. by exists x, k.
  - right. split; [done|]. case_decide; [by left|by right].
Qed.

Lemma ranking_loop_outcome fuel :
  ∀ (result : list (nat * score)) rank ranks calls,
  result ≠ [] →
  length result ≤ S fuel →
  (∃ r, ranking_loop variable_names scoring_strategy fuel result rank ranks calls
          = Returns r) ∨
  ranking_loop variable_names scoring_strategy fuel result rank ranks calls
    = Raises IndexError ∨
  ((∃ scores, ¬ (- ssize_max - 1 ≤ scoring_strategy scores ≤ ssize_max)%Z) ∧
   ranking_loop variable_names scoring_strategy fuel result rank ranks calls
     = Raises OverflowError).
Proof.
  assert (∀ var s rank ranks calls fuel,
    (∃ r, ranking_loop variable_names scoring_strategy fuel [(var, s)] rank ranks
            calls = Returns r) ∨
    ranking_loop variable_names scoring_strategy fuel [(var, s)] rank ranks calls
      = Raises IndexError) as Hsingle.
  { intros var s rank ranks calls fuel'. rewrite ranking_loop_last by (simpl; lia).
    change (getitem [(var, s)] 0%Z) with (@Returns (nat * score) (var, s)).
    cbn -[getitem]. rewrite getitem_of_nat.
    destruct (variable_names !! var); [left; by eexists|by right]. }
  induction fuel as [|fuel IH]; intros result rank ranks calls Hne Hlen.
  - destruct result as [|[var s] [|e' rest]]; simpl in Hlen; [done| |lia].
    destruct (Hsingle var s rank ranks calls 0) as [?| ->]; [by left|right; by left].
  - destruct (decide (1 < length result)) as [Hlong|Hshort].
    + rewrite ranking_loop_step by done.
      destruct (list_pop_outcome result (scoring_strategy result.*2))
        as [([var s] & k & Hk & Hx & ->)|[_ [-> |[Hbig ->]]]];
        [|right; by left|right; right; split; [by eexists|done]].
      cbn -[getitem ranking_loop]. rewrite getitem_of_nat.
      destruct (variable_names !! var) as [name|]; [|right; by left].
      cbn -[ranking_loop]. apply IH.
      * intros Hnil. apply (f_equal length) in Hnil.
        rewrite length_delete in Hnil by eauto. simpl in Hnil. lia.
      * rewrite length_delete by eauto. lia.
    + destruct result as [|[var s] [|e' rest]]; simpl in Hshort; [done| |lia].
      destruct (Hsingle var s rank ranks calls (S fuel)) as [?| ->];
        [by left|right; by left].
Qed.

(** The aggregator always comes back, its loop never outlives its bound: it
    returns a rank map, or raises the [IndexError] of [result.pop] or of
    [variable_names[var]], or, when the scoring strategy has answered with
    an integer that does not fit an index, the [OverflowError] of
    [result.pop]. *)
Theorem convert_result_list_to_dict_outcome (result : list (nat * score)) :
  (∃ r, convert_result_list_to_dict result variable_names scoring_strategy = Returns r) ∨
  convert_result_list_to_dict result variable_names scoring_strategy = Raises IndexError ∨
  ((∃ scores, ¬ (- ssize_max - 1 ≤ scoring_strategy scores ≤ ssize_max)%Z) ∧
   convert_result_list_to_dict result variable_names scoring_strategy
     = Raises OverflowError).
Proof.
  unfold convert_result_list_to_dict. case_decide as Hlen.
  - left. by eexists.
  - apply ranking_loop_outcome; [|lia]. by intros ->.
Qed.

(** The aggregator returns exactly when the input is empty, or the scoring
    strategy answers within the pool every time it is asked and every
    variable index has a name; in every other case it raises an
    [IndexError] or an [OverflowError]. *)
Theorem convert_result_list_to_dict_returns_iff (result : list (nat * score)) :
  ((∃ r, convert_result_list_to_dict result variable_names scoring_strategy = Returns r) ↔
   result = [] ∨
   (is_Some (ranking_order scoring_strategy result) ∧
    Forall (λ entry, entry.1 < length variable_names) result)) ∧
  (¬ (result = [] ∨
      (is_Some (ranking_order scoring_strategy result) ∧
       Forall (λ entry, entry.1 < length variable_names) result)) →
   convert_result_list_to_dict result variable_names scoring_strategy
     = Raises IndexError ∨
   convert_result_list_to_dict result variable_names scoring_strategy
     = Raises OverflowError).
Proof.
  assert ((∃ r, convert_result_list_to_dict result variable_names scoring_strategy
                  = Returns r) ↔
          result = [] ∨
          (is_Some (ranking_order scoring_strategy result) ∧
           Forall (λ entry, entry.1 < length variable_names) result)) as Hiff.
  { unfold convert_result_list_to_dict, ranking_order. case_decide as Hlen.
    - split; [|intros _; by eexists]. intros _. left. by destruct result.
    - assert (result ≠ []) as Hne by (by intros ->). split.
      + intros [r Hr]. right. by eapply ranking_loop_inv.
      + intros [?|[[order Horder] Hrange]]; [done|].
        rewrite (ranking_loop_order _ _ _ _ _ _ _ order Horder Hrange). by eexists. }
  split; [done|]. intros Hnot.
  assert (result ≠ []) as Hne by (intros ->; apply Hnot; by left).
  assert (∀ r, convert_result_list_to_dict result variable_names scoring_strategy
                 ≠ Returns r) as Hnever.
  { intros r Hr. apply Hnot, Hiff. by exists r. }
  unfold convert_result_list_to_dict in *.
  rewrite decide_False in * by (by destruct result).
  destruct (ranking_loop_outcome (length result) result 0 ∅ [] Hne)
    as [[r Hr]|[Hidx|[_ Hover]]]; [lia|by apply Hnever in Hr|by left|by right].
Qed.
End AggregatorOutcome.

(** ** The ranking aggregator: what the scoring strategy is shown *)

Section AggregatorTrace.
Context {K : Type} `{Countable K} {score : Type}.
Variable variable_names : list K.
Variable scoring_strategy : list score → Z.

Lemma ranking_loop_calls fuel :
  ∀ (result : list (nat * score)) rank ranks calls r,
  ranking_loop variable_names scoring_strategy fuel result rank ranks calls = Returns r →
  ∃ pools,
    strategy_calls r = calls ++ pools ∧
    ∀ i scores, pools !! i = Some scores →
      length scores = length result - i ∧ 2 ≤ length scores ∧
      scores `sublist_of` result.*2.
Proof.
  induction fuel as [|fuel IH]; intros result rank ranks calls r.
  - destruct (decide (1 < length result)) as [Hlen|Hlen].
    + simpl. by rewrite decide_True.
    + rewrite ranking_loop_last by done.
      destruct (getitem result 0%Z) as [[var s]| |]; [|done..].
      cbn -[getitem]. destruct (getitem variable_names _); [|done..].
      intros [= <-]. exists []. simpl. by rewrite app_nil_r.
  - destruct (decide (1 < length result)) as [Hlen|Hlen].
    + rewrite ranking_loop_step by done.
      destruct (list_pop result _) as [[[var s] result']| |] eqn:Hpop; [|done..].
      apply list_pop_Returns in Hpop as (best & Hbest & Hentry & ->).
      cbn -[getitem ranking_loop].
      destruct (getitem variable_names _) as [name| |]; [|done..].
      cbn -[ranking_loop]. intros Hloop.
      apply IH in Hloop as (pools & Hcalls & Hpools).
      exists (result.*2 :: pools). split; [by rewrite Hcalls, <- app_assoc|].
      intros [|i] scores Hi; simpl in Hi.
      * injection Hi as <-. rewrite length_fmap. split_and!; [lia|lia|done].
      * destruct (Hpools i scores Hi) as (Hlen' & Htwo & Hsub).
        rewrite length_delete in Hlen' by eauto. split_and!; [lia|done|].
        etrans; [done|]. apply fmap_sublist, sublist_delete.
    + rewrite ranking_loop_last by done.
      destruct (getitem result 0%Z) as [[var s]| |]; [|done..].
      cbn -[getitem]. destruct (getitem variable_names _); [|done..].
      intros [= <-]. exists []. simpl. by rewrite app_nil_r.
Qed.

(** The scoring strategy is first shown all the scores, in the order of the
    input, and at each later call the scores still to be ranked, one fewer
    than before and in their original order; it is never shown fewer than
    two scores. *)
Theorem convert_result_list_to_dict_calls (result : list (nat * score)) r :
  convert_result_list_to_dict result variable_names scoring_strategy = Returns r →
  ∀ i scores, strategy_calls r !! i = Some scores →
    length scores = length result - i ∧
    2 ≤ length scores ∧
    scores `sublist_of` result.*2 ∧
    (i = 0 → scores = result.*2).
Proof.
  unfold convert_result_list_to_dict. case_decide as Hlen.
  - intros [= <-] i scores Hi. done.
  - intros Hloop i scores Hi.
    assert (1 < length result) as Hlong.
    { destruct (decide (1 < length result)) as [|Hshort]; [done|].
      rewrite ranking_loop_last in Hloop by done.
      destruct (getitem result 0%Z) as [[var s]| |]; [|done..].
      cbn -[getitem] in Hloop. destruct (getitem variable_names _); [|done..].
      injection Hloop as <-. done. }
    destruct (ranking_loop_calls _ _ _ _ _ _ Hloop) as (pools & Hcalls & Hpools).
    simpl in Hcalls. rewrite Hcalls in Hi.
    destruct (Hpools i scores Hi) as (Hlen' & Htwo & Hsub).
    split_and!; [done..|]. intros ->.
    destruct (length result) as [|n] eqn:Hn; [lia|].
    rewrite ranking_loop_step in Hloop by lia.
    destruct (list_pop result _) as [[[var s] result']| |]; [|done..].
    cbn -[getitem ranking_loop] in Hloop.
    destruct (getitem variable_names _) as [name| |]; [|done..].
    cbn -[ranking_loop] in Hloop.
    destruct (ranking_loop_calls _ _ _ _ _ _ Hloop) as (pools' & Hcalls' & _).
    rewrite Hcalls in Hcalls'. simpl in Hcalls'.
    destruct pools as [|first pools]; [done|]. simpl in Hi.
    injection Hi as <-. by injection Hcalls' as ->.
Qed.
End AggregatorTrace.

(** ** The ranking aggregator: the rank map *)

Section AggregatorRanks.
Context {K : Type} `{Countable K} {score : Type}.
Variable variable_names : list K.
Variable scoring_strategy : list score → Z.

(** What the aggregator returns on a non-empty input, in terms of the
    order in which it ranks. *)
Lemma convert_result_list_to_dict_order (result : list (nat * score)) r :
  result ≠ [] →
  convert_result_list_to_dict result variable_names scoring_strategy = Returns r →
  ∃ order,
    ranking_order scoring_strategy result = Some order ∧
    order ≡ₚ result ∧
    Forall (λ entry, entry.1 < length variable_names) order ∧
    result_dict r = rank_entries variable_names 0 order ∅.
Proof.
  intros Hne. unfold convert_result_list_to_dict, ranking_order.
  rewrite decide_False by (by destruct result). intros Hloop.
  destruct (ranking_loop_inv _ _ _ _ _ _ _ _ Hne Hloop) as [[order Horder] Hrange].
  rewrite (ranking_loop_order _ _ _ _ _ _ _ order Horder Hrange) in Hloop.
  injection Hloop as <-. exists order.
  pose proof (ranking_order_from_perm _ _ _ _ Horder) as Hperm.
  split_and!; [done|done|by rewrite Hperm|done].
Qed.

Lemma rank_entries_size_le (order : list (nat * score)) : ∀ rank ranks,
  size (rank_entries variable_names rank order ranks) ≤ size ranks + length order.
Proof.
  induction order as [|[var s] order IH]; intros rank ranks; simpl; [lia|].
  etrans; [apply IH|]. destruct (variable_names !! var) as [name|]; [|lia].
  rewrite map_size_insert. destruct (ranks !! name); simpl; unfold id; lia.
Qed.

Lemma rank_entries_size (order : list (nat * score)) :
  NoDup variable_names →
  ∀ rank ranks,
  NoDup order.*1 →
  Forall (λ entry, entry.1 < length variable_names) order →
  (∀ var s name, (var, s) ∈ order → variable_names !! var = Some name →
                 ranks !! name = None) →
  size (rank_entries variable_names rank order ranks) = size ranks + length order.
Proof.
  intros Hnames.
  induction order as [|[var s] order IH]; intros rank ranks Hvars Hrange Hfresh;
    simpl; [lia|].
  apply NoDup_cons in Hvars as [Hvar Hvars].
  apply Forall_cons_1 in Hrange as [Hlt Hrange]. simpl in Hlt.
  destruct (lookup_lt_is_Some_2 variable_names var Hlt) as [name Hname].
  rewrite Hname. rewrite IH; [|done|done|].
  - rewrite map_size_insert_None; [lia|].
    apply (Hfresh var s name); [by left|done].
  - intros var' s' name' Hin Hname'.
    rewrite lookup_insert_ne; [apply (Hfresh var' s' name'); [by right|done]|].
    intros ->.
    assert (var = var') as ->
      by exact (NoDup_lookup variable_names var var' name' Hnames Hname Hname').
    apply Hvar. apply list_elem_of_fmap. by exists (var', s').
Qed.

(** Whatever the names and the variables, a rank in the rank map is below
    the number of entries, its score is the score the input gives to a
    variable of that name, and the map has no more entries than the input. *)
Theorem convert_result_list_to_dict_bounds (result : list (nat * score)) r :
  convert_result_list_to_dict result variable_names scoring_strategy = Returns r →
  size (result_dict r) ≤ length result ∧
  ∀ name rank s, result_dict r !! name = Some (rank, s) →
    rank < length result ∧
    ∃ var, (var, s) ∈ result ∧ variable_names !! var = Some name.
Proof.
  intros Hreturns. destruct (decide (result = [])) as [->|Hne].
  - injection Hreturns as <-. simpl. split; [by rewrite map_size_empty|].
    intros name rank s. by rewrite lookup_empty.
  - destruct (convert_result_list_to_dict_order _ _ Hne Hreturns)
      as (order & _ & Hperm & _ & ->).
    split.
    + etrans; [apply rank_entries_size_le|]. rewrite map_size_empty, Hperm. done.
    + intros name rank s Hlook.
      apply rank_entries_lookup_inv in Hlook as [Hlook|(k & var & Hk & -> & Hname)];
        [by rewrite lookup_empty in Hlook|].
      split.
      * rewrite <- Hperm. simpl. by eapply lookup_lt_Some.
      * exists var. split; [|done]. rewrite <- Hperm. by eapply list_elem_of_lookup_2.
Qed.

(** With pairwise distinct names and variables the rank map has one entry
    for each entry of the input, and each rank from 0 up to the number of
    entries is held by exactly one name. *)
Theorem convert_result_list_to_dict_rank_bijection (result : list (nat * score)) r :
  NoDup variable_names →
  NoDup result.*1 →
  convert_result_list_to_dict result variable_names scoring_strategy = Returns r →
  size (result_dict r) = length result ∧
  ∀ rank, rank < length result →
    ∃ name, (∃ s, result_dict r !! name = Some (rank, s)) ∧
            ∀ name' s', result_dict r !! name' = Some (rank, s') → name' = name.
Proof.
  intros Hnames Hvars Hreturns. destruct (decide (result = [])) as [->|Hne].
  - injection Hreturns as <-. simpl. split; [by rewrite map_size_empty|].
    intros rank Hrank. simpl in Hrank. lia.
  - destruct (convert_result_list_to_dict_order _ _ Hne Hreturns)
      as (order & _ & Hperm & Hrange & ->).
    assert (NoDup order.*1) as Hvars' by (by rewrite Hperm).
    split.
    + rewrite rank_entries_size; [|done|done|done|].
      * rewrite map_size_empty, Hperm. done.
      * intros. apply lookup_empty.
    + intros rank Hrank. rewrite <- Hperm in Hrank.
      destruct (lookup_lt_is_Some_2 order rank Hrank) as [[var s] Hk].
      assert (var < length variable_names) as Hvar.
      { eapply Forall_forall in Hrange; [|by eapply list_elem_of_lookup_2]. done. }
      destruct (lookup_lt_is_Some_2 variable_names var Hvar) as [name Hname].
      exists name. split.
      * exists s.
        by rewrite (rank_entries_lookup variable_names order Hnames 0 ∅ rank var s name).
      * intros name' s' Hlook.
        apply rank_entries_lookup_inv in Hlook
          as [Hlook|(k & var' & Hk' & Hrk & Hname')];
          [by rewrite lookup_empty in Hlook|].
        simpl in Hrk. subst k. rewrite Hk in Hk'. injection Hk' as <- <-.
        congruence.
Qed.
End AggregatorRanks.

(** ** The ranking aggregator under constant scoring strategies *)

Lemma ranking_order_from_first {score} fuel : ∀ remaining : list (nat * score),
  remaining ≠ [] →
  length remaining ≤ S fuel →
  ranking_order_from (λ _, 0%Z) fuel remaining = Some remaining.
Proof.
  induction fuel as [|fuel IH]; intros remaining Hne Hlen.
  - destruct remaining as [|e [|e' rest]]; simpl in *; [done|done|lia].
  - destruct remaining as [|e [|e' rest]]; [done|done|].
    rewrite ranking_order_from_step by (simpl; lia).
    change (py_index (length (e :: e' :: rest)) 0%Z) with (Some 0). simpl.
    change (delete 0 (e :: e' :: rest)) with (e' :: rest).
    rewrite IH; [done|done|simpl in *; lia].
Qed.

Lemma ranking_order_from_last {score} fuel : ∀ remaining : list (nat * score),
  remaining ≠ [] →
  length remaining ≤ S fuel →
  ranking_order_from (λ _, (-1)%Z) fuel remaining = Some (reverse remaining).
Proof.
  induction fuel as [|fuel IH]; intros remaining Hne Hlen.
  - destruct remaining as [|e [|e' rest]]; simpl in *; [done|done|lia].
  - destruct (decide (1 < length remaining)) as [Hlong|Hshort].
    + rewrite ranking_order_from_step by done.
      destruct remaining as [|e rest _] using rev_ind; [done|].
      rewrite length_app in Hlong, Hlen |- *. simpl in Hlong, Hlen |- *.
      assert (py_index (length rest + 1) (-1) = Some (length rest)) as ->.
      { unfold py_index. rewrite decide_False by lia. rewrite decide_True by lia.
        f_equal. lia. }
      simpl. rewrite list_lookup_middle by done. simpl.
      rewrite delete_middle, app_nil_r. rewrite IH; [|by intros ->; simpl in *; lia|lia].
      by rewrite reverse_snoc.
    + destruct remaining as [|e [|e' rest]]; simpl in *; [done|done|lia].
Qed.

(** A strategy that always answers 0 ranks the entries in the order of the
    input; one that always answers -1, which Python reads as the last
    position, ranks them in the reverse order. *)
Theorem convert_result_list_to_dict_constant {K} `{Countable K} {score}
    (variable_names : list K) (result : list (nat * score)) :
  result ≠ [] →
  Forall (λ entry, entry.1 < length variable_names) result →
  NoDup variable_names →
  NoDup result.*1 →
  ∃ first last,
    convert_result_list_to_dict result variable_names (λ _, 0%Z) = Returns first ∧
    convert_result_list_to_dict result variable_names (λ _, (-1)%Z) = Returns last ∧
    ∀ k var s name, result !! k = Some (var, s) → variable_names !! var = Some name →
      result_dict first !! name = Some (k, s) ∧
      result_dict last !! name = Some (length result - 1 - k, s).
Proof.
  intros Hne Hrange Hnames Hvars. unfold convert_result_list_to_dict.
  rewrite !decide_False by (by destruct result).
  rewrite (ranking_loop_order _ _ _ _ _ _ _ result
             (ranking_order_from_first _ _ Hne (Nat.le_succ_diag_r _)) Hrange).
  rewrite (ranking_loop_order _ _ _ _ _ _ _ (reverse result)
             (ranking_order_from_last _ _ Hne (Nat.le_succ_diag_r _)) Hrange).
  eexists _, _. split; [reflexivity|]. split; [reflexivity|]. simpl.
  intros k var s name Hk Hname. split.
  - by rewrite (rank_entries_lookup variable_names result Hnames 0 ∅ k var s name).
  - pose proof (lookup_lt_Some _ _ _ Hk) as Hlt.
    rewrite (rank_entries_lookup variable_names (reverse result) Hnames 0 ∅
               (length result - 1 - k) var s name); [done| |..|done].
    + by rewrite fmap_reverse, reverse_Permutation.
    + rewrite reverse_lookup by lia. rewrite <- Hk. f_equal. lia.
Qed.

(** ** The single-process engine: failures and repeated variables *)

Section SingleEngine.
Context {dataset score : Type}.
Variable scoring_fn : dataset → dataset → outcome score.

Lemma singlethread_loop_raises (before : list (triple dataset)) :
  ∀ var training_data scoring_data after e result calls keys,
  Forall (λ item, ∃ s, scoring_fn item.1.2 item.2 = Returns s) before →
  scoring_fn training_data scoring_data = Raises e →
  singlethread_loop scoring_fn (before ++ (var, training_data, scoring_data) :: after)
    result calls keys = Raises e.
Proof.
  induction before as [|[[var' tr] sc] before IH];
    intros var training_data scoring_data after e result calls keys Hbefore Hraise;
    simpl.
  - by rewrite Hraise.
  - apply Forall_cons_1 in Hbefore as [[s Hs] Hbefore]. simpl in Hs.
    rewrite Hs. simpl. by apply IH.
Qed.

(** The single-process engine stops at the first triple on which
    [scoring_fn] raises and hands that exception to its caller, whatever
    comes after. *)
Theorem singlethread_iteration_raises (before after : list (triple dataset))
    var training_data scoring_data e :
  Forall (λ item, ∃ s, scoring_fn item.1.2 item.2 = Returns s) before →
  scoring_fn training_data scoring_data = Raises e →
  _singlethread_iteration scoring_fn
    (before ++ (var, training_data, scoring_data) :: after) = Raises e.
Proof. intros. by apply singlethread_loop_raises. Qed.

Lemma singlethread_loop_Returns_total (items : list (triple dataset)) :
  ∀ result calls keys r,
  singlethread_loop scoring_fn items result calls keys = Returns r →
  ∀ t, t ∈ items → is_Some (scored_entry scoring_fn t).
Proof.
  induction items as [|[[var tr] sc] items IH]; intros result calls keys r Hloop t Hin.
  - by apply elem_of_nil in Hin.
  - simpl in Hloop. destruct (scoring_fn tr sc) as [s| |] eqn:Hs; [|done..].
    simpl in Hloop. apply elem_of_cons in Hin as [->|Hin].
    + cbv [scored_entry]. simpl. rewrite Hs. by eexists.
    + by eapply IH.
Qed.

Lemma drain_app_lookup (before after : list (nat * score)) var :
  var ∉ after.*1 → drain (before ++ after) !! var = drain before !! var.
Proof.
  induction after as [|[var' s'] after IH] using rev_ind; intros Hfresh.
  - by rewrite app_nil_r.
  - rewrite fmap_app, not_elem_of_app in Hfresh. destruct Hfresh as [Hafter Hvar'].
    rewrite app_assoc, drain_snoc. simpl.
    rewrite lookup_insert_ne; [by apply IH|].
    intros ->. apply Hvar'. simpl. by left.
Qed.

Lemma drain_is_Some (queue : list (nat * score)) var :
  var ∈ queue.*1 → is_Some (drain queue !! var).
Proof.
  induction queue as [|[var' s'] queue IH] using rev_ind; [by intros ?%elem_of_nil|].
  rewrite fmap_app, elem_of_app, drain_snoc. simpl.
  destruct (decide (var' = var)) as [->|Hne].
  - rewrite lookup_insert_eq. by eexists.
  - rewrite lookup_insert_ne by done. intros [Hin|Hin]; [by apply IH|].
    by apply list_elem_of_singleton in Hin.
Qed.

(** When the single-process engine returns, the dict has the variables of
    the triples and no other, a variable that comes in several triples has
    the score of the last of them, and [scoring_fn] has been called on the
    triples in their order, once each. *)
Theorem singlethread_iteration_last_wins (items : list (triple dataset)) r :
  _singlethread_iteration scoring_fn items = Returns r →
  pass_calls r = triple_data <$> items ∧
  (∀ var, is_Some (pass_result r !! var) ↔ var ∈ items.*1.*1) ∧
  ∀ before var training_data scoring_data after,
    items = before ++ (var, training_data, scoring_data) :: after →
    var ∉ after.*1.*1 →
    ∃ s, scoring_fn training_data scoring_data = Returns s ∧
         pass_result r !! var = Some s.
Proof.
  unfold _singlethread_iteration. intros Hloop.
  pose proof (singlethread_loop_Returns_total _ _ _ _ _ Hloop) as Htotal.
  rewrite singlethread_loop_returns in Hloop by done. injection Hloop as <-.
  simpl. fold (drain (omap (scored_entry scoring_fn) items)).
  split_and!; [done| |].
  - intros var. rewrite <- (scored_entry_vars scoring_fn items Htotal). split.
    + intros [s Hs%drain_lookup_inv]. apply list_elem_of_fmap. by exists (var, s).
    + apply drain_is_Some.
  - intros before var tr sc after -> Hfresh.
    destruct (Htotal (var, tr, sc)) as [entry Hentry].
    { apply elem_of_app. right. by left. }
    cbv [scored_entry] in Hentry. simpl in Hentry.
    destruct (scoring_fn tr sc) as [s| |] eqn:Hs; [|done..].
    exists s. split; [done|].
    assert (omap (scored_entry scoring_fn) (before ++ (var, tr, sc) :: after) =
            (omap (scored_entry scoring_fn) before ++ [(var, s)]) ++
            omap (scored_entry scoring_fn) after) as ->.
    { rewrite omap_app. csimpl. cbv [scored_entry]. simpl. rewrite Hs.
      by rewrite <- app_assoc. }
    rewrite drain_app_lookup.
    + rewrite drain_snoc. simpl. by rewrite lookup_insert_eq.
    + rewrite scored_entry_vars; [done|].
      intros t Ht. apply Htotal. apply elem_of_app. right. by right.
Qed.
End SingleEngine.

(** ** The worker pool: invariants of every run *)

Section PoolRuns.
Context {dataset score : Type}.
Variable scoring_fn : dataset → dataset → outcome score.

Lemma pool_step_backpressure njobs (p p' : pool dataset score) ev :
  pool_step scoring_fn njobs p ev = Some p' →
  length (in_queue p) ≤ njobs → length (in_queue p') ≤ njobs.
Proof.
  intros Hstep Hlen. destruct ev as [|w|w|w]; simpl in Hstep.
  - destruct (to_put p); [done|]. case_decide; [|done]. injection Hstep as <-.
    simpl. rewrite length_app. simpl. lia.
  - destruct (workers p !! w) as [[| | |]|]; [|done..].
    destruct (in_queue p) eqn:Hq; [done|]. injection Hstep as <-. simpl in *. lia.
  - destruct (workers p !! w) as [[|[[var tr] sc]| |]|]; [done| |done..].
    destruct (scoring_fn tr sc); [| |done]; by injection Hstep as <-.
  - destruct (workers p !! w) as [[| | |]|]; [done..| |done]. by injection Hstep as <-.
Qed.

Lemma pool_run_backpressure njobs schedule : ∀ p p' : pool dataset score,
  pool_run scoring_fn njobs schedule p = Some p' →
  length (in_queue p) ≤ njobs → length (in_queue p') ≤ njobs.
Proof.
  induction schedule as [|ev schedule IH]; intros p p' Hrun Hlen; simpl in Hrun.
  - by injection Hrun as <-.
  - destruct (pool_step scoring_fn njobs p ev) as [p1|] eqn:Hstep; [|done].
    simpl in Hrun. eapply IH; [done|]. by eapply pool_step_backpressure.
Qed.

Lemma omap_length_le {A B} (f : A → option B) (l : list A) :
  length (omap f l) ≤ length l.
Proof.
  induction l as [|x l IH]; csimpl; [done|]. destruct (f x); simpl; lia.
Qed.

(** However the pool is scheduled, the request queue never holds more than
    [njobs] items, no triple is scored twice, also when workers die, and
    the workers stay [njobs] in number. *)
Theorem pool_run_bounded (items : list (triple dataset)) njobs schedule p :
  pool_run scoring_fn njobs schedule (pool_init items njobs) = Some p →
  length (in_queue p) ≤ njobs ∧
  pool_calls p ⊆+ (triple_data <$> items) ∧
  length (out_queue p) ≤ length (pool_calls p) ∧
  length (workers p) = njobs.
Proof.
  intros Hrun.
  destruct (pool_init_invariant scoring_fn items njobs) as [Hinv Hqueue].
  destruct (pool_run_invariant scoring_fn items _ _ _ _ Hrun Hinv Hqueue)
    as ((scored & Hperm & Hcalls & Hout) & _ & Hlen & _).
  split_and!.
  - eapply pool_run_backpressure; [done|]. simpl. lia.
  - rewrite Hcalls. apply fmap_submseteq. rewrite <- Hperm.
    apply submseteq_inserts_l. done.
  - rewrite Hout, Hcalls, length_fmap. apply omap_length_le.
  - rewrite Hlen. simpl. by rewrite length_replicate.
Qed.

(** With at least one worker the pool never raises to its caller, whatever
    [scoring_fn] does; what it returns holds, for a variable, a score
    that [scoring_fn] returned on a triple of that variable, so a triple on
    which it raised has left nothing behind. *)
Theorem multithread_iteration_silent (items : list (triple dataset)) njobs schedule :
  (1 ≤ njobs)%Z →
  (∀ e, _multithread_iteration scoring_fn schedule items njobs ≠ Raises e) ∧
  ∀ r var s,
    _multithread_iteration scoring_fn schedule items njobs = Returns r →
    pass_result r !! var = Some s →
    ∃ training_data scoring_data,
      (var, training_data, scoring_data) ∈ items ∧
      scoring_fn training_data scoring_data = Returns s.
Proof.
  intros Hjobs. split.
  - intros e. by apply multithread_iteration_never_raises.
  - intros r var s Hrun Hs. by eapply multithread_iteration_entries.
Qed.

(** Once every worker has ended and the request queue is full while the
    parent still has something to put, no process of the pool can move:
    the parent is blocked in [in_queue.put], and [pool.join()] is never
    reached. Only a fresh worker in the place of a dead one unblocks it. *)
Theorem pool_blocked njobs (p : pool dataset score) :
  to_put p ≠ [] →
  length (in_queue p) = njobs →
  Forall (λ w, worker_ended w = true) (workers p) →
  pool_joined p = false ∧
  ∀ ev p', pool_step scoring_fn njobs p ev = Some p' →
    ∃ w, ev = Respawn w ∧ workers p !! w = Some Crashed.
Proof.
  intros Hput Hfull Hended. split.
  - unfold pool_joined. by rewrite bool_decide_eq_false_2.
  - intros ev p' Hstep. destruct ev as [|w|w|w]; simpl in Hstep.
    + destruct (to_put p); [done|]. rewrite decide_False in Hstep by lia. done.
    + destruct (workers p !! w) as [wk|] eqn:Hw; [|done].
      eapply Forall_lookup_1 in Hended; [|done]. by destruct wk.
    + destruct (workers p !! w) as [wk|] eqn:Hw; [|done].
      eapply Forall_lookup_1 in Hended; [|done]. by destruct wk.
    + destruct (workers p !! w) as [[| | |]|] eqn:Hw; [done..| |done]. by exists w.
Qed.
End PoolRuns.

Lemma pool_run_bounded_witness :
  ∃ p, pool_run brittle_scoring_fn 2 blocking_schedule
         (pool_init four_brittle_triples 2) = Some p ∧
       length (in_queue p) ≤ 2 ∧ length (workers p) = 2.
Proof.
  eexists. split; [vm_compute; reflexivity|].
  edestruct (pool_run_bounded brittle_scoring_fn four_brittle_triples 2
               blocking_schedule) as (Hqueue & _ & _ & Hworkers).
  - vm_compute. reflexivity.
  - split; [exact Hqueue|exact Hworkers].
Defined.

Lemma multithread_iteration_silent_witness :
  _multithread_iteration brittle_scoring_fn crash_schedule two_triples 2
    ≠ Raises ScoringError.
Proof.
  destruct (multithread_iteration_silent brittle_scoring_fn two_triples 2
              crash_schedule) as [Hnever _]; [lia|exact (Hnever ScoringError)].
Defined.

Lemma pool_blocked_witness :
  ∃ p, pool_run brittle_scoring_fn 2 blocking_schedule
         (pool_init four_brittle_triples 2) = Some p ∧
       pool_joined p = false ∧
       pool_step brittle_scoring_fn 2 p Put = None.
Proof.
  eexists. split; [vm_compute; reflexivity|].
  edestruct (pool_blocked brittle_scoring_fn 2) as [Hjoined Hsteps];
    [| | |split; [exact Hjoined|]].
  - simpl. discriminate.
  - reflexivity.
  - repeat constructor.
  - reflexivity.
Defined.

(** ** The orchestrator: recording a bootstrap pass *)

Section RecordScores.
Context {score : Type}.

Lemma append_scores_Returns (items : list (nat * score)) :
  ∀ result : gmap nat (list score),
  (∀ var, var ∈ items.*1 → is_Some (result !! var)) →
  ∃ result', append_scores items result = Returns result'.
Proof.
  induction items as [|[var s] items IH]; intros result Hdom; simpl; [by eexists|].
  destruct (Hdom var) as [scores Hscores]; [by left|]. rewrite Hscores.
  apply IH. intros var' Hin.
  destruct (decide (var = var')) as [->|Hne].
  - rewrite lookup_insert_eq. by eexists.
  - rewrite lookup_insert_ne by done. apply Hdom. by right.
Qed.

Lemma append_scores_KeyError (items : list (nat * score)) :
  ∀ (result : gmap nat (list score)) var,
  var ∈ items.*1 → result !! var = None →
  append_scores items result = Raises KeyError.
Proof.
  induction items as [|[var' s] items IH]; intros result var Hin Hnone; simpl.
  - by apply elem_of_nil in Hin.
  - destruct (result !! var') as [scores|] eqn:Hvar'; [|done].
    apply (IH _ var).
    + apply elem_of_cons in Hin as [->|Hin]; [|done]. simpl in Hnone. congruence.
    + rewrite lookup_insert_ne; [done|]. intros ->. simpl in *. congruence.
Qed.

(** Recording a pass fails, with a [KeyError], exactly when scores have
    been recorded before and the pass has a variable that has none so far;
    in every other case it returns. The first pass with scores decides which
    variables a round has. *)
Theorem record_scores_KeyError_iff (result : gmap nat (list score))
    (result_i : gmap nat score) :
  (record_scores result result_i = Raises KeyError ↔
   result ≠ ∅ ∧ ∃ var, is_Some (result_i !! var) ∧ result !! var = None) ∧
  ((∃ result', record_scores result result_i = Returns result') ∨
   record_scores result result_i = Raises KeyError).
Proof.
  assert (∀ var, var ∈ (map_to_list result_i).*1 ↔ is_Some (result_i !! var)) as Hkeys.
  { intros var. rewrite list_elem_of_fmap. split.
    - intros ([var' s] & -> & Hin%elem_of_map_to_list). by exists s.
    - intros [s Hs]. exists (var, s). split; [done|]. by apply elem_of_map_to_list. }
  unfold record_scores. case_decide as Hsize.
  - apply map_size_empty_iff in Hsize. subst result. split; [|left; by eexists].
    split; [done|]. by intros [? _].
  - assert (result ≠ ∅) as Hne by (intros ->; by rewrite map_size_empty in Hsize).
    destruct (decide (Forall (λ var, is_Some (result !! var)) (map_to_list result_i).*1))
      as [Hdom|Hmiss].
    + destruct (append_scores_Returns (map_to_list result_i) result) as [result' Hret].
      { intros var Hin. by eapply Forall_forall in Hdom. }
      rewrite Hret. split; [|left; by eexists]. split; [done|].
      intros (_ & var & Hsome & Hnone). apply Hkeys in Hsome.
      eapply Forall_forall in Hdom; [|done]. rewrite Hnone in Hdom. by destruct Hdom.
    + apply not_Forall_Exists in Hmiss; [|apply _].
      apply Exists_exists in Hmiss as (var & Hin & Hnone). simpl in Hnone.
      apply eq_None_not_Some in Hnone.
      rewrite (append_scores_KeyError _ _ var Hin Hnone).
      split; [|by right]. split; [|done]. intros _. split; [done|].
      exists var. split; [by apply Hkeys|done].
Qed.
End RecordScores.

(** ** The orchestrator: rounds without distinct names, and whole runs *)

Section RunExtras.
Context {K : Type} `{Countable K} {data dataset score : Type}.
Variable np_average : list score → score.
Variables training_data scoring_data : data.
Variable scoring_fn : dataset → dataset → outcome score.
Variable scoring_strategy : list score → Z.
Variable selection_strategy : data → data → nat → list nat → nat → Q → strategy dataset.
Variable variable_names : list K.
Variable nbootstrap : nat.
Variable subsample : Q.
Variable njobs : Z.
Variable schedules : nat → nat → list event.

Local Abbreviation pass_of :=
  (scoring_pass training_data scoring_data scoring_fn selection_strategy
     variable_names subsample njobs schedules).
Local Abbreviation candidates important_vars i :=
  (selection_iterator
     (selection_strategy training_data scoring_data (length variable_names)
        important_vars i subsample)).
Local Abbreviation bootstrap :=
  (bootstrap_loop training_data scoring_data scoring_fn selection_strategy
     variable_names subsample njobs schedules).
Local Abbreviation round_of :=
  (selection_round np_average training_data scoring_data scoring_fn
     scoring_strategy selection_strategy variable_names nbootstrap subsample
     njobs schedules).
Local Abbreviation rounds_of :=
  (selection_rounds np_average training_data scoring_data scoring_fn
     scoring_strategy selection_strategy variable_names nbootstrap subsample
     njobs schedules).

(** Whatever the names, the winner of a round that returns is a key of
    least rank of the round's rank map and the name of a variable that the
    strategy offered in one of the passes of this round; the index appended
    to the history is the first position of [variable_names] that bears
    this name. *)
Theorem selection_round_winner round important_vars result_obj state' :
  round_of round (important_vars, result_obj) = Returns state' →
  ∃ next_result best_var best_index rank s,
    state' = (important_vars ++ [best_index],
              add_new_results result_obj next_result best_var) ∧
    next_result !! best_var = Some (rank, s) ∧
    (∀ name rank' s', next_result !! name = Some (rank', s') → rank ≤ rank') ∧
    variable_names !! best_index = Some best_var ∧
    (∀ j, j < best_index → variable_names !! j ≠ Some best_var) ∧
    ∃ var i, i < nbootstrap ∧ var ∈ (candidates important_vars i).*1.*1 ∧
             variable_names !! var = Some best_var.
Proof.
  unfold selection_round.
  destruct (bootstrap round important_vars (seq 0 nbootstrap) ∅ [])
    as [[result keys]| |] eqn:Hboot; [|done..]. simpl.
  destruct (bootstrap_loop_collects _ _ _ _ _ _ _ _ _ _ _ [] _ _ _ _ collects_nil
              lists_keys_empty Hboot)
    as (passes & Hpasses & Hcoll & Hkeys). simpl in Hcoll.
  apply (lists_keys_fmap np_average) in Hkeys.
  destruct (add_ranks_to_dict _ _ _ _) as [next_result| |] eqn:Hranks; [|done..]. simpl.
  destruct (min_rank_key next_result) as [best_var| |] eqn:Hmin; [|done..]. simpl.
  destruct (first_index variable_names best_var) as [best_index| |] eqn:Hindex;
    [|done..]. simpl.
  intros [= <-].
  apply min_rank_key_Returns in Hmin as (rank & s & Hbest & Hle).
  exists next_result, best_var, best_index, rank, s.
  split_and!; [done|done|done|by apply first_index_Returns| |].
  - unfold first_index in Hindex.
    destruct (list_find _ _) as [[index name]|] eqn:Hfind; [|done].
    injection Hindex as ->. apply list_find_Some in Hfind as (Hlook & -> & Hleast).
    intros j Hj Hname. by apply (Hleast j best_var).
  - apply add_ranks_to_dict_Returns in Hranks
      as [[_ ->]|(order & _ & _ & Hperm & _ & ->)];
      [by rewrite lookup_empty in Hbest| |done].
    apply rank_entries_lookup_inv in Hbest as [Hbest|(k & var & Hk & _ & Hname)];
      [by rewrite lookup_empty in Hbest|].
    assert ((var, s) ∈ map_to_list (np_average <$> result)) as Hin.
    { rewrite <- Hperm. by eapply list_elem_of_lookup_2. }
    apply elem_of_map_to_list in Hin. rewrite lookup_fmap in Hin.
    destruct (result !! var) as [scores|] eqn:Hvar; [|done].
    destruct (collects_lookup _ _ _ _ Hcoll Hvar) as (_ & result_i & s0 & Hin_i & Hs0).
    apply list_elem_of_lookup in Hin_i as [j Hj].
    destruct (Forall2_lookup_r _ _ _ _ _ Hpasses Hj) as (i & Hi & r & Hpass & <-).
    exists var, i. split_and!; [|by eapply scoring_pass_vars; [|eexists]|done].
    apply lookup_seq in Hi. lia.
Qed.

(** The cumulative result keeps the method name, the variable names and
    the baseline score it was created with, gets one entry for each round,
    and names, entry by entry, the variable at the index the history has. *)
Lemma selection_rounds_result rounds : ∀ state state',
  rounds_of rounds state = Returns state' →
  method state'.2 = method state.2 ∧
  result_names state'.2 = result_names state.2 ∧
  original_score state'.2 = original_score state.2 ∧
  ∃ history results,
    state'.1 = state.1 ++ history ∧
    round_results state'.2 = round_results state.2 ++ results ∧
    length history = length rounds ∧
    Forall2 (λ index entry, variable_names !! index = Some entry.2) history results.
Proof.
  induction rounds as [|round rounds IH]; intros state state'; simpl.
  - intros [= <-]. split_and!; [done..|]. exists [], []. rewrite !app_nil_r. done.
  - destruct (round_of round state) as [state1| |] eqn:Hround; [|done..]. simpl.
    intros Hrounds. destruct state as [important_vars result_obj].
    destruct (selection_round_winner _ _ _ _ Hround)
      as (next_result & best_var & best_index & rank & s & -> & _ & _ & Hname & _).
    destruct (IH _ _ Hrounds) as (Hmethod & Hnames & Hscore & history & results &
                                   Hhist & Hres & Hlen & Hall).
    simpl in *. split_and!; [done..|].
    exists (best_index :: history), ((next_result, best_var) :: results).
    split_and!.
    + by rewrite Hhist, <- app_assoc.
    + by rewrite Hres, <- app_assoc.
    + simpl. by rewrite Hlen.
    + by constructor.
Qed.

(** Without bootstrap passes a round has no scores: the rank map is empty
    and [min] raises a [ValueError], under either engine. *)
Lemma selection_round_no_bootstrap round state :
  nbootstrap = 0 → round_of round state = Raises ValueError.
Proof.
  intros Hzero. destruct state as [important_vars result_obj].
  unfold selection_round. rewrite Hzero. simpl.
  by rewrite min_rank_key_empty.
Qed.
End RunExtras.

(** A run that returns has run [nimportant_vars] rounds, the number of
    variables when none is given: the history and the cumulative result
    have that many entries, each entry of the result names the variable at
    the index the history has, and the result carries the method name, the
    variable names, and as baseline the score of [generate_datasets([])] of
    the strategy made with an empty history and bootstrap index 0. *)
Theorem sequential_selection_result {K} `{Countable K} {data dataset score : Type}
    (np_average : list score → score) (cpu_count : nat) (len_inputs : data → nat)
    (training_data scoring_data : data)
    (scoring_fn : dataset → dataset → outcome score)
    (scoring_strategy : list score → Z)
    (selection_strategy : data → data → nat → list nat → nat → Q → strategy dataset)
    (variable_names : list K) (nimportant_vars : option nat) (method_name : string)
    (nbootstrap : nat) (subsample : Q) (njobs : Z)
    (schedules : nat → nat → list event)
    (state : list nat * ImportanceResult K score) :
  sequential_selection_state np_average cpu_count len_inputs training_data
    scoring_data scoring_fn scoring_strategy selection_strategy variable_names
    nimportant_vars method_name nbootstrap subsample njobs schedules = Returns state →
  let baseline :=
    generate_datasets_nil
      (selection_strategy training_data scoring_data (length variable_names) [] 0
         (resolve_subsample len_inputs training_data subsample)) in
  scoring_fn baseline.1 baseline.2 = Returns (original_score state.2) ∧
  method state.2 = method_name ∧
  result_names state.2 = variable_names ∧
  length state.1 = default (length variable_names) nimportant_vars ∧
  Forall2 (λ index entry, variable_names !! index = Some entry.2)
    state.1 (round_results state.2).
Proof.
  unfold sequential_selection_state. simpl.
  destruct (generate_datasets_nil _) as [training scoring]. simpl.
  destruct (scoring_fn training scoring) as [original| |]; [|done..]. simpl.
  intros Hrounds.
  destruct (selection_rounds_result _ _ _ _ _ _ _ _ _ _ _ _ _ _ Hrounds)
    as (Hmethod & Hnames & Hscore & history & results & Hhist & Hres & Hlen & Hall).
  simpl in *. rewrite Hhist, Hres, Hscore, Hmethod, Hnames.
  rewrite length_seq in Hlen. by rewrite Hlen.
Qed.

(** With [nbootstrap = 0] a run that is to make at least one round, and
    whose baseline is scored, fails in its first round with the
    [ValueError] of [min], whatever the worker count. *)
Theorem sequential_selection_no_bootstrap {K} `{Countable K}
    {data dataset score : Type}
    (np_average : list score → score) (cpu_count : nat) (len_inputs : data → nat)
    (training_data scoring_data : data)
    (scoring_fn : dataset → dataset → outcome score)
    (scoring_strategy : list score → Z)
    (selection_strategy : data → data → nat → list nat → nat → Q → strategy dataset)
    (variable_names : list K) (nimportant_vars : option nat) (method_name : string)
    (subsample : Q) (njobs : Z) (schedules : nat → nat → list event) (s : score) :
  let baseline :=
    generate_datasets_nil
      (selection_strategy training_data scoring_data (length variable_names) [] 0
         (resolve_subsample len_inputs training_data subsample)) in
  scoring_fn baseline.1 baseline.2 = Returns s →
  0 < default (length variable_names) nimportant_vars →
  sequential_selection np_average cpu_count len_inputs training_data
    scoring_data scoring_fn scoring_strategy selection_strategy variable_names
    nimportant_vars method_name 0 subsample njobs schedules = Raises ValueError.
Proof.
  unfold sequential_selection, sequential_selection_state. simpl.
  destruct (generate_datasets_nil _) as [training scoring]. simpl.
  intros -> Hrounds. simpl.
  destruct (default (length variable_names) nimportant_vars) as [|n]; [lia|].
  change (seq 0 (S n)) with (0 :: seq 1 n). cbn [selection_rounds].
  by rewrite selection_round_no_bootstrap.
Qed.

(** ** [get_data_subset] *)

Lemma py_index_Some n c k :
  py_index n c = Some k ↔
  (- Z.of_nat n ≤ c < Z.of_nat n)%Z ∧ k = Z.to_nat (c mod Z.of_nat n).
Proof.
  unfold py_index. repeat case_decide.
  - rewrite Z.mod_small by lia.
    split; [intros [= <-]|intros [_ ->]]; [split; [lia|done]|done].
  - assert (c mod Z.of_nat n = Z.of_nat n + c)%Z as ->.
    { symmetry. apply (Z.mod_unique_pos _ _ (-1)); lia. }
    split; [intros [= <-]|intros [_ ->]]; [split; [lia|done]|done].
  - split; [done|]. intros [? _]. lia.
Qed.

Lemma take_indices_Some {X} (array : list X) columns selected :
  take_indices array columns = Some selected →
  Forall (λ c, (- Z.of_nat (length array) ≤ c < Z.of_nat (length array))%Z) columns ∧
  length selected = length columns ∧
  ∀ j c, columns !! j = Some c →
         selected !! j = array !! Z.to_nat (c mod Z.of_nat (length array)).
Proof.
  unfold take_indices. intros Hall%mapM_Some. split_and!.
  - apply Forall_forall. intros c [j Hj]%list_elem_of_lookup.
    destruct (Forall2_lookup_l _ _ _ _ _ Hall Hj) as (x & _ & Hc).
    destruct (py_index (length array) c) as [k|] eqn:Hk; [|done].
    by apply py_index_Some in Hk as [? _].
  - symmetry. by eapply Forall2_length.
  - intros j c Hj. destruct (Forall2_lookup_l _ _ _ _ _ Hall Hj) as (x & Hx & Hc).
    rewrite Hx. destruct (py_index (length array) c) as [k|] eqn:Hk; [|done].
    apply py_index_Some in Hk as [_ ->]. done.
Qed.

Lemma take_indices_is_Some {X} (array : list X) columns :
  Forall (λ c, (- Z.of_nat (length array) ≤ c < Z.of_nat (length array))%Z) columns →
  is_Some (take_indices array columns).
Proof.
  intros Hrange. unfold take_indices. apply mapM_is_Some.
  eapply Forall_impl; [done|]. intros c Hc. simpl.
  destruct (py_index (length array) c) as [k|] eqn:Hk.
  - simpl. apply lookup_lt_is_Some_2. by eapply py_index_lt.
  - exfalso. cbv beta in Hc. unfold py_index in Hk.
    repeat case_decide; [done|done|lia].
Qed.

(** The subset of an array: when every column index is in [-n, n), for [n]
    columns, it has one column for each index, which is the column at that
    index, counted from the end when the index is negative; with an index
    outside that range the call fails on the index. *)
Theorem get_data_subset_array {K A} `{EqDecision K} (array : list (list A)) columns :
  let n := Z.of_nat (length array) in
  (Forall (λ c, (- n ≤ c < n)%Z) columns →
   ∃ selected,
     get_data_subset (K := K) (NdArray array) columns = Subset (NdArray selected) ∧
     length selected = length columns ∧
     ∀ j c, columns !! j = Some c → selected !! j = array !! Z.to_nat (c mod n)) ∧
  (¬ Forall (λ c, (- n ≤ c < n)%Z) columns →
   get_data_subset (K := K) (NdArray array) columns = SubsetIndexError).
Proof.
  simpl. split.
  - intros Hrange. destruct (take_indices_is_Some array columns Hrange) as [selected Hsel].
    exists selected. rewrite Hsel. split; [done|].
    by destruct (take_indices_Some _ _ _ Hsel) as (_ & ? & ?).
  - intros Hout. destruct (take_indices array columns) as [selected|] eqn:Hsel; [|done].
    by destruct (take_indices_Some _ _ _ Hsel) as (? & _).
Qed.

Lemma take_indices_fmap {X Y} (f : X → Y) (array : list X) columns :
  take_indices (f <$> array) columns =
    (λ selected : list X, f <$> selected) <$> take_indices array columns.
Proof.
  unfold take_indices. rewrite length_fmap.
  induction columns as [|c columns IH]; [done|].
  change (mapM ?g (c :: columns)) with (y ← g c; k ← mapM g columns; mret (y :: k)).
  rewrite IH.
  destruct (py_index (length array) c) as [k|]; simpl; [|done].
  rewrite list_lookup_fmap. destruct (array !! k); simpl; [|done].
  match goal with |- context [mapM ?g columns] => by destruct (mapM g columns) end.
Qed.

Lemma filter_label_fresh {K A} `{EqDecision K} (named : list (K * list A)) label :
  label ∉ named.*1 → filter (λ c, c.1 = label) named = [].
Proof.
  induction named as [|c named IH]; [done|]. simpl.
  intros [Hc Hnamed]%not_elem_of_cons.
  rewrite filter_cons_False by done. by apply IH.
Qed.

Lemma filter_label_NoDup {K A} `{EqDecision K} (named : list (K * list A)) i column :
  NoDup named.*1 → named !! i = Some column →
  filter (λ c, c.1 = column.1) named = [column].
Proof.
  revert i. induction named as [|c named IH]; intros i Hnodup Hi; [done|].
  apply NoDup_cons in Hnodup as [Hfresh Hnodup]. simpl in Hfresh.
  pose proof (filter_label_fresh named) as Hnone.
  destruct i as [|i]; simpl in Hi.
  - injection Hi as ->. rewrite filter_cons_True by done. by rewrite Hnone.
  - rewrite filter_cons_False; [by eapply IH|].
    intros Heq. apply Hfresh. rewrite Heq. apply list_elem_of_fmap.
    exists column. split; [done|]. by eapply list_elem_of_lookup_2.
Qed.

(** The subset of a dataframe: it is defined exactly when every column
    index is in range; each of its columns is a column of the dataframe
    under a requested label, and no requested column is lost. When the
    column names are pairwise distinct it is, names and cells, the columns
    at the requested indices in the requested order, as for an array. *)
Theorem get_data_subset_frame {K A} `{EqDecision K} (named : list (K * list A))
    columns :
  let n := Z.of_nat (length named) in
  (Forall (λ c, (- n ≤ c < n)%Z) columns →
   ∃ labels selected,
     take_indices named.*1 columns = Some labels ∧
     get_data_subset (DataFrame named) columns = Subset (DataFrame selected) ∧
     (∀ column, column ∈ selected ↔ column ∈ named ∧ column.1 ∈ labels) ∧
     (NoDup named.*1 → take_indices named columns = Some selected)) ∧
  (¬ Forall (λ c, (- n ≤ c < n)%Z) columns →
   get_data_subset (DataFrame named) columns = SubsetIndexError).
Proof.
  simpl. split.
  - intros Hrange.
    destruct (take_indices_is_Some named columns Hrange) as [positional Hpos].
    pose proof (take_indices_fmap fst named columns) as Hlabels.
    rewrite Hpos in Hlabels. simpl in Hlabels.
    exists positional.*1, (loc_columns named positional.*1).
    rewrite Hlabels. split_and!; [done|done| |].
    + intros column. unfold loc_columns. rewrite list_elem_of_bind. split.
      * intros (label & Hin%list_elem_of_filter & Hlabel). destruct Hin as [<- Hin].
        done.
      * intros [Hin Hlabel]. exists column.1. split; [|done].
        by apply list_elem_of_filter.
    + intros Hnodup. rewrite Hpos. f_equal. unfold take_indices in Hpos.
      apply mapM_Some in Hpos. unfold loc_columns.
      clear Hlabels Hrange. induction Hpos as [|c column cs sel Hc _ IH]; [done|].
      csimpl. rewrite <- IH.
      destruct (py_index (length named) c) as [k|]; [|done]. simpl in Hc.
      by rewrite (filter_label_NoDup named k column).
  - intros Hout. rewrite <- (length_fmap fst) in Hout.
    destruct (take_indices named.*1 columns) as [labels|] eqn:Hsel; [|done].
    by destruct (take_indices_Some _ _ _ Hsel) as (? & _).
Qed.

Lemma take_indices_cons {X} (array : list X) c columns :
  take_indices array (c :: columns) =
    x ← py_index (length array) c ≫= (array !!.);
    rest ← take_indices array columns;
    Some (x :: rest).
Proof. reflexivity. Qed.

Lemma take_indices_compose {X} (array : list X) columns1 selected1 columns2 :
  take_indices array columns1 = Some selected1 →
  ∀ selected2,
  take_indices selected1 columns2 = Some selected2 →
  ∃ columns, take_indices columns1 columns2 = Some columns ∧
             take_indices array columns = Some selected2.
Proof.
  intros H1. pose proof (take_indices_Some _ _ _ H1) as (_ & Hlen & _).
  unfold take_indices in H1. apply mapM_Some in H1.
  induction columns2 as [|c columns2 IH]; intros selected2 H2.
  - injection H2 as <-. by exists [].
  - rewrite take_indices_cons in H2. rewrite Hlen in H2.
    destruct (py_index (length columns1) c) as [k|] eqn:Hk; [|done]. simpl in H2.
    destruct (selected1 !! k) as [col|] eqn:Hcol; [|done]. simpl in H2.
    destruct (take_indices selected1 columns2) as [rest|] eqn:Hrest; [|done].
    injection H2 as <-.
    destruct (IH rest eq_refl) as (columns & Hcols & Hsub).
    destruct (Forall2_lookup_r _ _ _ _ _ H1 Hcol) as (c1 & Hc1 & Hsel).
    exists (c1 :: columns). rewrite !take_indices_cons, Hk. simpl.
    rewrite Hc1. simpl. rewrite Hcols. simpl.
    split; [done|]. rewrite Hsel. simpl. by rewrite Hsub.
Qed.

Lemma take_indices_all {X} (array : list X) :
  take_indices array (Z.of_nat <$> seq 0 (length array)) = Some array.
Proof.
  unfold take_indices. apply mapM_Some, Forall2_fmap_l, Forall2_lookup. intros i.
  destruct (array !! i) as [col|] eqn:Hcol.
  - rewrite lookup_seq_lt by (by eapply lookup_lt_Some).
    constructor. simpl. rewrite py_index_of_nat by (by eapply lookup_lt_Some). done.
  - rewrite lookup_seq_ge by (by apply lookup_ge_None). constructor.
Qed.

(** Taking a subset of a subset of an array is taking the subset at the
    indices the second list picks from the first; taking all the columns in
    their order gives the array back. *)
Theorem get_data_subset_compose {K A} `{EqDecision K} (array : list (list A))
    columns1 columns2 selected1 selected2 :
  get_data_subset (K := K) (NdArray array) columns1 = Subset (NdArray selected1) →
  get_data_subset (K := K) (NdArray selected1) columns2 = Subset (NdArray selected2) →
  (∃ columns, take_indices columns1 columns2 = Some columns ∧
              get_data_subset (K := K) (NdArray array) columns
                = Subset (NdArray selected2)) ∧
  get_data_subset (K := K) (NdArray array) (Z.of_nat <$> seq 0 (length array))
    = Subset (NdArray array).
Proof.
  simpl. intros H1 H2.
  destruct (take_indices array columns1) as [s1|] eqn:Hs1; [|done].
  injection H1 as <-.
  destruct (take_indices s1 columns2) as [s2|] eqn:Hs2; [|done].
  injection H2 as <-. split.
  - destruct (take_indices_compose _ _ _ _ Hs1 _ Hs2) as (columns & Hcols & Hsub).
    exists columns. by rewrite Hsub.
  - by rewrite take_indices_all.
Qed.

(** ** Instances *)

Lemma convert_result_list_to_dict_returns_iff_witness :
  ∃ r, convert_result_list_to_dict scores_abc names_abc argmin = Returns r.
Proof.
  apply (convert_result_list_to_dict_returns_iff names_abc argmin scores_abc).
  right. split.
  - by eexists.
  - unfold scores_abc, names_abc. repeat constructor; simpl; lia.
Defined.

Lemma convert_result_list_to_dict_calls_witness :
  ∃ r, convert_result_list_to_dict scores_abc names_abc argmin = Returns r ∧
       ∀ scores, strategy_calls r !! 1 = Some scores → length scores = 2.
Proof.
  eexists. split; [vm_compute; reflexivity|]. intros scores Hscores.
  edestruct (convert_result_list_to_dict_calls names_abc argmin scores_abc)
    as (Hlen & _); [vm_compute; reflexivity|exact Hscores|exact Hlen].
Defined.

Lemma convert_result_list_to_dict_bounds_witness :
  ∃ r, convert_result_list_to_dict scores_abc names_abc argmin = Returns r ∧
       size (result_dict r) ≤ 3.
Proof.
  eexists. split; [vm_compute; reflexivity|].
  edestruct (convert_result_list_to_dict_bounds names_abc argmin scores_abc)
    as [Hsize _]; [vm_compute; reflexivity|exact Hsize].
Defined.

Lemma convert_result_list_to_dict_rank_bijection_witness :
  ∃ r, convert_result_list_to_dict scores_abc names_abc argmin = Returns r ∧
       size (result_dict r) = 3.
Proof.
  eexists. split; [vm_compute; reflexivity|].
  edestruct (convert_result_list_to_dict_rank_bijection names_abc argmin scores_abc)
    as [Hsize _]; [..|exact Hsize].
  - apply (bool_decide_unpack _); vm_compute; exact I.
  - apply (bool_decide_unpack _); vm_compute; exact I.
  - vm_compute. reflexivity.
Defined.

Lemma convert_result_list_to_dict_constant_witness :
  ∃ first last,
    convert_result_list_to_dict scores_abc names_abc (λ _, 0%Z) = Returns first ∧
    convert_result_list_to_dict scores_abc names_abc (λ _, (-1)%Z) = Returns last ∧
    result_dict first !! "A"%string = Some (0, (9 # 10)%Q) ∧
    result_dict last !! "A"%string = Some (2, (9 # 10)%Q).
Proof.
  destruct (convert_result_list_to_dict_constant names_abc scores_abc)
    as (first & last & Hfirst & Hlast & Hranks).
  - discriminate.
  - unfold scores_abc, names_abc. repeat constructor; simpl; lia.
  - apply (bool_decide_unpack _); vm_compute; exact I.
  - apply (bool_decide_unpack _); vm_compute; exact I.
  - exists first, last. split; [exact Hfirst|]. split; [exact Hlast|].
    exact (Hranks 0 0 (9 # 10)%Q "A"%string eq_refl eq_refl).
Defined.

Lemma singlethread_iteration_raises_witness :
  _singlethread_iteration brittle_scoring_fn two_triples = Raises ScoringError.
Proof.
  apply (singlethread_iteration_raises brittle_scoring_fn [(0, [0], [0])] []
           1 [1] [1] ScoringError).
  - repeat constructor. eexists. reflexivity.
  - reflexivity.
Defined.

Lemma singlethread_iteration_last_wins_witness :
  ∃ r, _singlethread_iteration toy_scoring_fn
         [(0, [2], [2]); (0, [3], [3])] = Returns r ∧
       pass_result r !! 0 = Some (3 # 10)%Q.
Proof.
  eexists. split; [vm_compute; reflexivity|].
  edestruct (singlethread_iteration_last_wins toy_scoring_fn
               [(0, [2], [2]); (0, [3], [3])])
    as (_ & _ & Hlast); [vm_compute; reflexivity|].
  destruct (Hlast [(0, [2], [2])] 0 [3] [3] []) as (s & Hs & Hlook).
  - reflexivity.
  - apply not_elem_of_nil.
  - injection Hs as <-. exact Hlook.
Defined.

Lemma record_scores_KeyError_iff_witness :
  record_scores ({[ 0 := [(1 # 10)%Q] ]} : gmap nat (list Q)) {[ 1 := (2 # 10)%Q ]}
    = Raises KeyError.
Proof.
  apply record_scores_KeyError_iff. split.
  - intros Hempty. apply (f_equal (λ m : gmap nat (list Q), m !! 0)) in Hempty.
    vm_compute in Hempty. discriminate.
  - exists 1. split; [by eexists|reflexivity].
Defined.

Lemma selection_round_winner_witness :
  ∃ state' best_index best_var,
    toy_round = Returns state' ∧
    state'.1 = [] ++ [best_index] ∧
    names_abc !! best_index = Some best_var.
Proof.
  destruct toy_round as [state'| |] eqn:Hround;
    [|vm_compute in Hround; discriminate..].
  destruct (selection_round_winner Q_average tt tt toy_scoring_fn argmin
              forward_strategy names_abc 1 1%Q 1%Z (λ _ _, []) 0 []
              (Build_ImportanceResult "forward" names_abc 0%Q []) state' Hround)
    as (next_result & best_var & best_index & rank & s & -> & _ & _ & Hname & _).
  exists (([] : list nat) ++ [best_index],
          add_new_results (Build_ImportanceResult "forward" names_abc 0%Q [])
            next_result best_var), best_index, best_var.
  repeat split. exact Hname.
Defined.

Lemma sequential_selection_result_witness :
  ∃ state, toy_selection None = Returns state ∧
           length state.1 = 3 ∧ result_names state.2 = names_abc.
Proof.
  destruct (toy_selection None) as [state| |] eqn:Hrun;
    [|vm_compute in Hrun; discriminate..].
  destruct (sequential_selection_result Q_average 8 (λ _ : unit, 100) tt tt
              toy_scoring_fn argmin forward_strategy names_abc None "forward" 1
              1%Q 1%Z (λ _ _, []) state Hrun)
    as (_ & _ & Hnames & Hlen & _).
  exists state. repeat split; [exact Hlen|exact Hnames].
Defined.

Lemma sequential_selection_no_bootstrap_witness :
  sequential_selection Q_average 8 (λ _ : unit, 100) tt tt toy_scoring_fn argmin
    forward_strategy names_abc None "forward" 0 1%Q 1%Z (λ _ _, [])
  = Raises ValueError.
Proof.
  apply (sequential_selection_no_bootstrap Q_average 8 (λ _ : unit, 100) tt tt
           toy_scoring_fn argmin forward_strategy names_abc None "forward" 1%Q
           1%Z (λ _ _, []) (0 # 10)%Q).
  - reflexivity.
  - simpl. lia.
Defined.

Lemma get_data_subset_array_witness :
  ∃ selected,
    get_data_subset (K := string) (NdArray sample_array) [(-1)%Z; 0%Z]
      = Subset (NdArray selected) ∧
    selected !! 0 = Some [5; 6] ∧
    get_data_subset (K := string) (NdArray sample_array) [3%Z] = SubsetIndexError.
Proof.
  destruct (get_data_subset_array (K := string) sample_array [(-1)%Z; 0%Z])
    as [Hin _].
  destruct Hin as (selected & Hsel & _ & Hcols).
  - repeat constructor; simpl; lia.
  - exists selected. split; [exact Hsel|]. split.
    + exact (Hcols 0 (-1)%Z eq_refl).
    + destruct (get_data_subset_array (K := string) sample_array [3%Z]) as [_ Hout].
      apply Hout. intros Hrange. apply Forall_cons_1 in Hrange as [Hc _].
      simpl in Hc. lia.
Defined.

Lemma get_data_subset_frame_witness :
  ∃ selected,
    get_data_subset (DataFrame sample_frame) [2%Z; 0%Z] = Subset (DataFrame selected) ∧
    take_indices sample_frame [2%Z; 0%Z] = Some selected.
Proof.
  destruct (get_data_subset_frame sample_frame [2%Z; 0%Z]) as [Hin _].
  destruct Hin as (labels & selected & _ & Hsel & _ & Hpos).
  - repeat constructor; simpl; lia.
  - exists selected. split; [exact Hsel|]. apply Hpos.
    apply (bool_decide_unpack _); vm_compute; exact I.
Defined.

Lemma get_data_subset_compose_witness :
  ∃ columns,
    take_indices [2%Z; 0%Z; 1%Z] [(-1)%Z; 0%Z] = Some columns ∧
    get_data_subset (K := string) (NdArray sample_array) columns
      = Subset (NdArray [[3; 4]; [5; 6]]).
Proof.
  destruct (get_data_subset_compose (K := string) sample_array [2%Z; 0%Z; 1%Z]
              [(-1)%Z; 0%Z] [[5; 6]; [1; 2]; [3; 4]] [[3; 4]; [5; 6]])
    as [Hcompose _]; [reflexivity|reflexivity|exact Hcompose].
Defined.
